(** * Lane-invasion sensor of LibCarla: a shallow embedding

    The development follows [carla/client/LaneInvasionSensor.cpp]:

    - [Rotate] and [MakeBounds] (the footprint of the vehicle),
    - [LaneInvasionCallback::Tick], cut at its atomic accesses to the
      [_bounds] slot so that several ticks can be interleaved,
    - the tick handler that [Listen] registers, with its [try]/[catch],
    - [LaneInvasionSensor::Listen] and [LaneInvasionSensor::Stop].

    Single-precision numbers are IEEE-754 binary32 values, computed with
    the operations of [SpecFloat] at precision 24 and maximal exponent 128. *)

From Stdlib Require Import ZArith NArith List Sorted Bool String DecimalString Lia.
From Stdlib Require Import Floats.SpecFloat.
Import ListNotations.

Set Implicit Arguments.

(** ** binary32 arithmetic (the C++ [float]) *)

Module F32.

Definition prec : Z := 24.
Definition emax : Z := 128.

Definition float : Type := spec_float.

Definition add : float -> float -> float := SFadd prec emax.
Definition sub : float -> float -> float := SFsub prec emax.
Definition mul : float -> float -> float := SFmul prec emax.
Definition div : float -> float -> float := SFdiv prec emax.
Definition sqrt : float -> float := SFsqrt prec emax.
Definition opp : float -> float := SFopp.
Definition ltb : float -> float -> bool := SFltb.
Definition leb : float -> float -> bool := SFleb.

(** An integer literal written with an [f] suffix, such as [180.0f]. *)
Definition of_Z (z : Z) : float := binary_normalize prec emax z 0 false.

(** The number [m * 2^e], rounded to binary32. *)
Definition of_scaled (m e : Z) : float := binary_normalize prec emax m e false.

Definition zero : float := S754_zero false.
Definition one : float := of_Z 1.

(** [std::numeric_limits<float>::epsilon()], that is 2^-23. *)
Definition epsilon : float := of_scaled 1 (-23).

Definition valid (x : float) : bool := valid_binary prec emax x.

End F32.

Declare Scope f32_scope.
Delimit Scope f32_scope with f32.
Infix "+" := F32.add : f32_scope.
Infix "-" := F32.sub : f32_scope.
Infix "*" := F32.mul : f32_scope.
Infix "/" := F32.div : f32_scope.
Infix "<?" := F32.ltb : f32_scope.
Infix "<=?" := F32.leb : f32_scope.
Notation "- x" := (F32.opp x) : f32_scope.

(** The two functions of the C library that [Rotate] calls.  They are not
    part of the repository, so the detector is parameterised by them. *)
Record Libm : Type := {
  cosf : F32.float -> F32.float;
  sinf : F32.float -> F32.float
}.

(** What every conforming C library guarantees at the angle zero. *)
Definition exact_at_zero (libm : Libm) : Prop :=
  cosf libm F32.zero = F32.one /\ sinf libm F32.zero = F32.zero.

(** A stand-in C library for evaluating examples: short Taylor polynomials in
    binary32 arithmetic.  It is exact at zero, the only angle at which the
    examples below call it. *)
Definition taylor_cos (x : F32.float) : F32.float :=
  let x2 := (x * x)%f32 in
  (F32.one - x2 / F32.of_Z 2 + (x2 * x2) / F32.of_Z 24)%f32.

Definition taylor_sin (x : F32.float) : F32.float :=
  let x2 := (x * x)%f32 in
  (x - (x * x2) / F32.of_Z 6 + (x * (x2 * x2)) / F32.of_Z 120)%f32.

Definition taylor_libm : Libm := {| cosf := taylor_cos; sinf := taylor_sin |}.

(** ** Geometry ([carla/geom]) *)

(** [geom::Vector3D], and [geom::Location] which derives from it. *)
Record Vector3D : Type := MkVector3D { x : F32.float; y : F32.float; z : F32.float }.

Definition Location : Type := Vector3D.

(** [geom::Rotation], in degrees. *)
Record Rotation : Type := { pitch : F32.float; yaw : F32.float; roll : F32.float }.

(** [geom::Transform]. *)
Record Transform : Type := { location : Location; rotation : Rotation }.

(** [geom::BoundingBox]: centre of the box relative to its owner, and half
    the size of the box along each axis. *)
Record BoundingBox : Type := { box_location : Location; extent : Vector3D }.

Module Math.
(** Modelled from the spec: [geom::Math::Pi<float>()] lives in
    [carla/geom/Math.h], which is not among the sources.  It is the
    binary32 number nearest to pi, [13176795 * 2^-22]. *)
Definition Pi : F32.float := F32.of_scaled 13176795 (-22).
End Math.

(** Modelled from the spec: the operators of [geom::Location] live in
    [carla/geom/Location.h] and [carla/geom/Vector3D.h], which are not among
    the sources.  Sum and difference are componentwise, and [Length] is the
    Euclidean norm [sqrt (x*x + y*y + z*z)]. *)
Definition Location_add (a b : Location) : Location :=
  MkVector3D (x a + x b)%f32 (y a + y b)%f32 (z a + z b)%f32.

Definition Location_sub (a b : Location) : Location :=
  MkVector3D (x a - x b)%f32 (y a - y b)%f32 (z a - z b)%f32.

Definition SquaredLength (v : Vector3D) : F32.float :=
  (x v * x v + y v * y v + z v * z v)%f32.

Definition Length (v : Vector3D) : F32.float := F32.sqrt (SquaredLength v).

(** A vector with a coordinate that is not a number. *)
Definition has_nan (v : Vector3D) : Prop :=
  x v = S754_nan \/ y v = S754_nan \/ z v = S754_nan.

Declare Scope loc_scope.
Delimit Scope loc_scope with loc.
Infix "+" := Location_add : loc_scope.
Infix "-" := Location_sub : loc_scope.

(** [std::array<T, 4>], indexed by the four values the loops run through. *)
Record array4 (A : Type) : Type := Array4 { elt0 : A; elt1 : A; elt2 : A; elt3 : A }.

Inductive index4 : Type := I0 | I1 | I2 | I3.

Definition get4 {A : Type} (a : array4 A) (i : index4) : A :=
  match i with
  | I0 => elt0 a
  | I1 => elt1 a
  | I2 => elt2 a
  | I3 => elt3 a
  end.

(** The range of [for (auto i = 0u; i < 4u; ++i)]. *)
Definition indices4 : list index4 := [I0; I1; I2; I3].

(** [LaneInvasionCallback::Bounds]: the footprint at one frame. *)
Record Bounds : Type := { frame : N; corners : array4 Location }.

Section Footprint.

Variable libm : Libm.

(** [static geom::Location Rotate(float yaw, const geom::Location &location)] *)
Definition Rotate (yaw : F32.float) (location : Location) : Location :=
  let yaw := (yaw * (Math.Pi / F32.of_Z 180))%f32 in
  let c := cosf libm yaw in
  let s := sinf libm yaw in
  MkVector3D
    (c * x location - s * y location)%f32
    (s * x location + c * y location)%f32
    (z location).

(** [LaneInvasionCallback::MakeBounds], with the captured bounding box
    [_parent_bounding_box] as an argument. *)
Definition MakeBounds (box : BoundingBox) (frame : N) (transform : Transform) : Bounds :=
  let location := (location transform + box_location box)%loc in
  let yaw := yaw (rotation transform) in
  {| frame := frame;
     corners := Array4
       (location + Rotate yaw (MkVector3D (x (extent box)) (y (extent box)) F32.zero))%loc
       (location + Rotate yaw (MkVector3D (- x (extent box))%f32 (y (extent box)) F32.zero))%loc
       (location + Rotate yaw (MkVector3D (x (extent box)) (- y (extent box))%f32 F32.zero))%loc
       (location + Rotate yaw (MkVector3D (- x (extent box))%f32 (- y (extent box))%f32 F32.zero))%loc |}.

End Footprint.

(** ** The footprint as the specification words it *)

(** An angle in degrees, in radians. *)
Definition degrees_to_radians (degrees : F32.float) : F32.float :=
  (degrees * (Math.Pi / F32.of_Z 180))%f32.

(** A matrix with two rows and two columns, and its product with the first
    two components of a vector. *)
Record matrix2 : Type := { m11 : F32.float; m12 : F32.float; m21 : F32.float; m22 : F32.float }.

Definition rotation_matrix (libm : Libm) (angle : F32.float) : matrix2 :=
  {| m11 := cosf libm angle; m12 := (- sinf libm angle)%f32;
     m21 := sinf libm angle; m22 := cosf libm angle |}.

Definition rotate_contract (libm : Libm) (yaw_degrees : F32.float) (offset : Location)
  : Location :=
  let m := rotation_matrix libm (degrees_to_radians yaw_degrees) in
  MkVector3D (m11 m * x offset + m12 m * y offset)%f32
             (m21 m * x offset + m22 m * y offset)%f32
             (z offset).

Inductive sign : Type := Plus | Minus.

Definition signed (s : sign) (v : F32.float) : F32.float :=
  match s with
  | Plus => v
  | Minus => (- v)%f32
  end.

(** The order of the corners: +x+y, -x+y, +x-y, -x-y. *)
Definition corner_signs : array4 (sign * sign) :=
  Array4 (Plus, Plus) (Minus, Plus) (Plus, Minus) (Minus, Minus).

Definition map4 {A B : Type} (f : A -> B) (a : array4 A) : array4 B :=
  Array4 (f (elt0 a)) (f (elt1 a)) (f (elt2 a)) (f (elt3 a)).

Definition build_contract (libm : Libm) (frame : N) (transform : Transform)
    (bounding_box : BoundingBox) : Bounds :=
  let center := (location transform + box_location bounding_box)%loc in
  {| frame := frame;
     corners :=
       map4 (fun s =>
               (center + rotate_contract libm (yaw (rotation transform))
                           (MkVector3D (signed (fst s) (x (extent bounding_box)))
                                       (signed (snd s) (y (extent bounding_box)))
                                       F32.zero))%loc)
            corner_signs |}.

(** ** The world snapshot and the collaborators of the detector *)

Definition ActorId : Type := N.

(** A C++ [double], carried around but never computed with. *)
Definition double : Type := spec_float.

Module Timestamp.
(** [carla::client::Timestamp]: the fields the detector reads. *)
Record t : Type := { frame : N; elapsed_seconds : double }.
End Timestamp.

Module ActorSnapshot.
(** [carla::client::ActorSnapshot]: the fields the detector reads. *)
Record t : Type := { id : ActorId; transform : Transform }.
End ActorSnapshot.

Module WorldSnapshot.
(** Modelled from the spec: [carla::client::WorldSnapshot] is not among the
    sources.  The detector uses [GetTimestamp], [GetFrame] and [Find], the
    last one yielding the state of an actor when the snapshot contains it. *)
Record t : Type := {
  GetTimestamp : Timestamp.t;
  Find : ActorId -> option ActorSnapshot.t
}.
Definition GetFrame (s : t) : N := Timestamp.frame (GetTimestamp s).
End WorldSnapshot.

(** What a call into foreign code may throw: something derived from
    [std::exception], carrying its [what()], or a value of any other type. *)
Inductive exn : Type :=
  | StdException (what : string)
  | OtherThrowable.

(** How a call ends. *)
Inductive completion : Type :=
  | Returned
  | Threw (e : exn).

Section Detector.

Variable libm : Libm.

(** [road::element::LaneMarking], which the detector only forwards. *)
Variable LaneMarking : Type.

(** [sensor::data::LaneInvasionEvent], with the arguments of its
    constructor in their order. *)
Record LaneInvasionEvent : Type := {
  event_frame : N;
  event_timestamp : double;
  event_transform : Transform;
  event_parent : ActorId;
  event_crossed_lane_markings : list LaneMarking
}.

(** The members of [LaneInvasionCallback] that never change.  [_map] is
    represented by its method [CalculateCrossedLanes], and [_callback] by
    the way each call of the subscriber ends. *)
Record LaneInvasionCallback : Type := {
  _parent : ActorId;
  _parent_bounding_box : BoundingBox;
  CalculateCrossedLanes : Location -> Location -> list LaneMarking;
  _callback : LaneInvasionEvent -> completion
}.

(** A [std::shared_ptr<const Bounds>] that is not null: the address of the
    object made by [std::make_shared], and the object, which is never
    written after its construction. *)
Record BoundsPtr : Type := { addr : N; pointee : Bounds }.

(** The mutable member [_bounds], and the next address [std::make_shared]
    hands out.  Addresses are never reused: a snapshot stays alive as long
    as the slot or a running tick owns it. *)
Record Store : Type := { _bounds : option BoundsPtr; next_addr : N }.

Definition make_shared (b : Bounds) (st : Store) : BoundsPtr * Store :=
  ({| addr := next_addr st; pointee := b |},
   {| _bounds := _bounds st; next_addr := N.succ (next_addr st) |}).

(** Two shared pointers are equal when they point to the same object. *)
Definition same_pointer (p q : option BoundsPtr) : bool :=
  match p, q with
  | None, None => true
  | Some a, Some b => N.eqb (addr a) (addr b)
  | _, _ => false
  end.

(** [AtomicSharedPtr::load]. *)
Definition load (st : Store) : option BoundsPtr := _bounds st.

(** [AtomicSharedPtr::compare_exchange(&expected, desired)]: the strong
    compare-and-exchange of [std::atomic_compare_exchange_strong_explicit].
    It yields its result, the new value of [expected], and the store. *)
Definition compare_exchange (st : Store) (expected : option BoundsPtr) (desired : BoundsPtr)
  : bool * option BoundsPtr * Store :=
  if same_pointer (_bounds st) expected
  then (true, expected, {| _bounds := Some desired; next_addr := next_addr st |})
  else (false, _bounds st, st).

(** What a tick does that can be seen from outside the detector. *)
Inductive effect : Type :=
  | Queried (a b : Location) (* a call of [_map->CalculateCrossedLanes] *)
  | Delivered (e : LaneInvasionEvent) (* a call of [_callback] *)
  | Logged (args : list string). (* a call of [log_error], with its arguments *)

(** ** [LaneInvasionCallback::Tick] *)

(** [constexpr float distance_threshold = 10.0f * epsilon] *)
Definition distance_threshold : F32.float := (F32.of_Z 10 * F32.epsilon)%f32.

(** The length compared at index [i] in the first loop of [Tick]. *)
Definition displacement (prev next : Bounds) (i : index4) : F32.float :=
  Length (get4 (corners next) i - get4 (corners prev) i)%loc.

(** The first loop of [Tick]: [true] when it leaves [Tick] by [return]. *)
Definition too_close (prev next : Bounds) : bool :=
  existsb (fun i => (displacement prev next i <? distance_threshold)%f32) indices4.

(** The second loop of [Tick]: the calls it makes, and [crossed_lanes]. *)
Definition crossing_queries (prev next : Bounds) : list effect :=
  map (fun i => Queried (get4 (corners prev) i) (get4 (corners next) i)) indices4.

Definition crossed_lanes (cb : LaneInvasionCallback) (prev next : Bounds) : list LaneMarking :=
  flat_map (fun i => CalculateCrossedLanes cb (get4 (corners prev) i) (get4 (corners next) i))
           indices4.

(** A tick in progress.  [Tick] is cut where it touches [_bounds], so that
    each step holds at most one atomic access, and a step carries the
    local variables [snapshot], [parent], [prev] and [next] to the next. *)
Inductive thread : Type :=
  | AtEntry (snapshot : WorldSnapshot.t)
  | AtBaseline (snapshot : WorldSnapshot.t) (parent : ActorSnapshot.t) (next : BoundsPtr)
  | AtCommit (snapshot : WorldSnapshot.t) (parent : ActorSnapshot.t)
             (prev next : BoundsPtr)
  | Finished (c : completion)
  | NullDereference.

(** From the first loop to the head of [do ... while]. *)
Definition check_distance (snapshot : WorldSnapshot.t) (parent : ActorSnapshot.t)
    (prev : option BoundsPtr) (next : BoundsPtr) : thread :=
  match prev with
  | None => NullDereference
  | Some prev =>
      if too_close (pointee prev) (pointee next)
      then Finished Returned
      else AtCommit snapshot parent prev next
  end.

(** From the end of [do ... while] to the end of [Tick]. *)
Definition report (cb : LaneInvasionCallback) (snapshot : WorldSnapshot.t)
    (parent : ActorSnapshot.t) (prev next : BoundsPtr) : thread * list effect :=
  let lanes := crossed_lanes cb (pointee prev) (pointee next) in
  let queries := crossing_queries (pointee prev) (pointee next) in
  match lanes with
  | [] => (Finished Returned, queries)
  | _ :: _ =>
      let event :=
        {| event_frame := Timestamp.frame (WorldSnapshot.GetTimestamp snapshot);
           event_timestamp := Timestamp.elapsed_seconds (WorldSnapshot.GetTimestamp snapshot);
           event_transform := ActorSnapshot.transform parent;
           event_parent := _parent cb;
           event_crossed_lane_markings := lanes |} in
      (Finished (_callback cb event), queries ++ [Delivered event])
  end.

(** One step of a tick: the code up to and including its next access to
    [_bounds], or up to its end. *)
Definition step (cb : LaneInvasionCallback) (t : thread) (st : Store)
  : thread * Store * list effect :=
  match t with
  | AtEntry snapshot =>
      match WorldSnapshot.Find snapshot (_parent cb) with
      | None => (Finished Returned, st, [])
      | Some parent =>
          let (next, st) :=
            make_shared (MakeBounds libm (_parent_bounding_box cb)
                           (WorldSnapshot.GetFrame snapshot)
                           (ActorSnapshot.transform parent)) st in
          match load st with
          | None => (AtBaseline snapshot parent next, st, [])
          | Some prev => (check_distance snapshot parent (Some prev) next, st, [])
          end
      end
  | AtBaseline snapshot parent next =>
      let '(exchanged, prev, st) := compare_exchange st None next in
      if exchanged
      then (Finished Returned, st, [])
      else (check_distance snapshot parent prev next, st, [])
  | AtCommit snapshot parent prev next =>
      if (frame (pointee next) <=? frame (pointee prev))%N
      then (Finished Returned, st, [])
      else
        let '(exchanged, prev', st) := compare_exchange st (Some prev) next in
        if exchanged
        then let (t, effects) := report cb snapshot parent prev next in (t, st, effects)
        else match prev' with
             | Some prev' => (AtCommit snapshot parent prev' next, st, [])
             | None => (NullDereference, st, [])
             end
  | Finished c => (Finished c, st, [])
  | NullDereference => (NullDereference, st, [])
  end.

(** A tick that runs with no other tick in between. *)
Fixpoint run (cb : LaneInvasionCallback) (fuel : nat) (t : thread) (st : Store)
  : thread * Store * list effect :=
  match fuel with
  | O => (t, st, [])
  | S fuel =>
      let '(t, st, effects) := step cb t st in
      let '(t, st, effects') := run cb fuel t st in
      (t, st, effects ++ effects')
  end.

Definition Tick (cb : LaneInvasionCallback) (snapshot : WorldSnapshot.t) (st : Store)
  : thread * Store * list effect :=
  run cb 2 (AtEntry snapshot) st.

End Detector.

Arguments Queried {LaneMarking} a b.
Arguments Delivered {LaneMarking} e.
Arguments Logged {LaneMarking} args.
Arguments crossing_queries {LaneMarking} prev next.

(** ** The stores a tick that runs alone can leave *)

Section Outcomes.

Variable libm : Libm.
Variable LaneMarking : Type.
Variable cb : LaneInvasionCallback LaneMarking.

(** The snapshot a tick builds at its entry. *)
Definition built (snapshot : WorldSnapshot.t) (parent : ActorSnapshot.t) (st : Store) : BoundsPtr :=
  {| addr := next_addr st;
     pointee := MakeBounds libm (_parent_bounding_box cb) (WorldSnapshot.GetFrame snapshot)
                  (ActorSnapshot.transform parent) |}.

(** The store once the tick has built its snapshot and decided to keep, or
    to replace, the committed one. *)
Definition kept (st : Store) : Store :=
  {| _bounds := _bounds st; next_addr := N.succ (next_addr st) |}.

Definition committed (next : BoundsPtr) (st : Store) : Store :=
  {| _bounds := Some next; next_addr := N.succ (next_addr st) |}.

End Outcomes.

(** ** Ticks that run interleaved *)

(** The scheduler may call the handler from several threads, so the steps of
    several ticks of one detector may alternate in any order. *)
Inductive action : Type :=
  | Dispatch (snapshot : WorldSnapshot.t) (* the scheduler starts a tick *)
  | Advance (i : nat). (* the [i]-th tick started so far makes a step *)

Fixpoint replace_nth {A : Type} (i : nat) (a : A) (l : list A) : list A :=
  match l, i with
  | [], _ => []
  | _ :: l, O => a :: l
  | b :: l, S i => b :: replace_nth i a l
  end.

(** The snapshots a tick in progress owns. *)
Definition owned (t : thread) : list BoundsPtr :=
  match t with
  | AtBaseline _ _ next => [next]
  | AtCommit _ _ prev next => [prev; next]
  | _ => []
  end.

(** The slot or the stepping tick owns [p]. *)
Definition within (st : Store) (t : thread) (p : BoundsPtr) : Prop :=
  _bounds st = Some p \/ In p (owned t).

Section Interleaving.

Variable libm : Libm.
Variable LaneMarking : Type.
Variable cb : LaneInvasionCallback LaneMarking.

Record System : Type := {
  shared : Store;
  pool : list thread;
  observed : list (effect LaneMarking)
}.

(** A detector that [Listen] has just made: [_bounds] is null. *)
Definition fresh_store : Store := {| _bounds := None; next_addr := 0 |}.

Definition fresh_system : System :=
  {| shared := fresh_store; pool := []; observed := [] |}.

Definition exec (s : System) (a : action) : System :=
  match a with
  | Dispatch snapshot =>
      {| shared := shared s; pool := pool s ++ [AtEntry snapshot]; observed := observed s |}
  | Advance i =>
      match nth_error (pool s) i with
      | None => s
      | Some t =>
          let '(t', st', effects) := step libm cb t (shared s) in
          {| shared := st';
             pool := replace_nth i t' (pool s);
             observed := observed s ++ effects |}
      end
  end.

Definition run_schedule (schedule : list action) (s : System) : System :=
  fold_left exec schedule s.

(** The snapshot a step makes, when it makes one. *)
Definition fresh_of (t : thread) (st : Store) : option BoundsPtr :=
  match t with
  | AtEntry snapshot =>
      match WorldSnapshot.Find snapshot (_parent cb) with
      | Some parent => Some (built libm cb snapshot parent st)
      | None => None
      end
  | _ => None
  end.

(** A snapshot is held when the slot or a tick in progress owns it. *)
Definition held (s : System) (p : BoundsPtr) : Prop :=
  _bounds (shared s) = Some p \/ exists t, In t (pool s) /\ In p (owned t).

(** Ticks that have not yet read a snapshot out of the slot. *)
Definition before_baseline (t : thread) : Prop :=
  match t with
  | AtCommit _ _ _ _ | NullDereference => False
  | _ => True
  end.

(** The cases of a step. *)
Inductive step_case (t : thread) (st : Store) : thread * Store * list (effect LaneMarking) -> Prop :=
  | case_absent snapshot :
      t = AtEntry snapshot -> fresh_of t st = None ->
      step_case t st (Finished Returned, st, [])
  | case_first snapshot parent next :
      t = AtEntry snapshot -> fresh_of t st = Some next -> _bounds st = None ->
      step_case t st (AtBaseline snapshot parent next, kept st, [])
  | case_later snapshot parent prev next :
      t = AtEntry snapshot -> fresh_of t st = Some next -> _bounds st = Some prev ->
      step_case t st (check_distance snapshot parent (Some prev) next, kept st, [])
  | case_baseline snapshot parent next :
      t = AtBaseline snapshot parent next -> _bounds st = None ->
      step_case t st (Finished Returned, {| _bounds := Some next; next_addr := next_addr st |}, [])
  | case_taken snapshot parent next current :
      t = AtBaseline snapshot parent next -> _bounds st = Some current ->
      step_case t st (check_distance snapshot parent (Some current) next, st, [])
  | case_stale snapshot parent prev next :
      t = AtCommit snapshot parent prev next ->
      (frame (pointee next) <= frame (pointee prev))%N ->
      step_case t st (Finished Returned, st, [])
  | case_exchanged snapshot parent prev next current :
      t = AtCommit snapshot parent prev next ->
      (frame (pointee prev) < frame (pointee next))%N ->
      _bounds st = Some current -> addr current = addr prev ->
      step_case t st (fst (report cb snapshot parent prev next),
                      {| _bounds := Some next; next_addr := next_addr st |},
                      snd (report cb snapshot parent prev next))
  | case_lost snapshot parent prev next current :
      t = AtCommit snapshot parent prev next ->
      (frame (pointee prev) < frame (pointee next))%N ->
      _bounds st = Some current -> addr current <> addr prev ->
      step_case t st (AtCommit snapshot parent current next, st, [])
  | case_null snapshot parent prev next :
      t = AtCommit snapshot parent prev next ->
      (frame (pointee prev) < frame (pointee next))%N ->
      _bounds st = None ->
      step_case t st (NullDereference, st, [])
  | case_idle :
      owned t = [] -> before_baseline t \/ t = NullDereference ->
      fresh_of t st = None ->
      step_case t st (t, st, []).

(** The invariant of the interleaved ticks: held snapshots have addresses
    that were handed out, an address names one snapshot, and while the slot
    is null no tick has passed the baseline exchange. *)
Record consistent (s : System) : Prop := {
  held_allocated : forall p, held s p -> (addr p < next_addr (shared s))%N;
  held_unique : forall p q, held s p -> held s q -> addr p = addr q -> p = q;
  null_early : _bounds (shared s) = None -> Forall before_baseline (pool s);
  never_null : Forall (fun t => t <> NullDereference) (pool s)
}.

(** The [prev] of every tick in its commit loop is the committed snapshot or
    an older one. *)
Definition behind (current : BoundsPtr) (t : thread) : Prop :=
  match t with
  | AtCommit _ _ prev _ => prev = current \/ (frame (pointee prev) < frame (pointee current))%N
  | _ => True
  end.

Definition prevs_behind (s : System) : Prop :=
  forall current, _bounds (shared s) = Some current -> Forall (behind current) (pool s).


Definition is_delivered (e : effect LaneMarking) : bool :=
  match e with
  | Delivered _ => true
  | _ => false
  end.

Definition is_finished (t : thread) : bool :=
  match t with
  | Finished _ => true
  | _ => false
  end.

(** The number of [Dispatch] actions of a schedule. *)
Definition dispatched (schedule : list action) : nat :=
  List.length (filter (fun a => match a with Dispatch _ => true | Advance _ => false end)
                 schedule).

End Interleaving.

(** ** The handler that [Listen] registers *)

Section Handler.

Variable libm : Libm.
Variable LaneMarking : Type.

(** The lambda given to [RegisterOnTickEvent]: it runs [cb->Tick(snapshot)]
    inside [try], and its [catch (const std::exception &e)] turns what it
    catches into a call of [log_error("LaneInvasionSensor:", e.what())]. *)
Definition handler (cb : LaneInvasionCallback LaneMarking) (snapshot : WorldSnapshot.t)
    (st : Store) : thread * Store * list (effect LaneMarking) :=
  let '(t, st, effects) := Tick libm cb snapshot st in
  match t with
  | Finished (Threw (StdException what)) =>
      (Finished Returned, st, effects ++ [Logged ["LaneInvasionSensor:"%string; what]])
  | _ => (t, st, effects)
  end.

(** The scheduler calling the handler once per frame, one call after the
    other, until a call ends with an exception that reaches the scheduler. *)
Fixpoint handle_all (cb : LaneInvasionCallback LaneMarking) (snapshots : list WorldSnapshot.t)
    (st : Store) : thread * Store * list (effect LaneMarking) :=
  match snapshots with
  | [] => (Finished Returned, st, [])
  | snapshot :: snapshots =>
      let '(t, st, effects) := handler cb snapshot st in
      match t with
      | Finished Returned =>
          let '(t, st, effects') := handle_all cb snapshots st in
          (t, st, effects ++ effects')
      | _ => (t, st, effects)
      end
  end.

(** The same detector with another subscriber. *)
Definition with_callback (cb : LaneInvasionCallback LaneMarking)
    (callback : LaneInvasionEvent LaneMarking -> completion) : LaneInvasionCallback LaneMarking :=
  {| _parent := _parent cb;
     _parent_bounding_box := _parent_bounding_box cb;
     CalculateCrossedLanes := CalculateCrossedLanes cb;
     _callback := callback |}.



Definition is_log (e : effect LaneMarking) : bool :=
  match e with
  | Logged _ => true
  | _ => false
  end.

End Handler.

(** ** [LaneInvasionSensor] and the episode it is registered with *)

(** [carla::client::Vehicle]: what the constructor of [LaneInvasionCallback]
    reads. *)
Record Vehicle : Type := { GetId : ActorId; GetBoundingBox : BoundingBox }.

(** The actor a sensor is attached to; [boost::dynamic_pointer_cast<Vehicle>]
    succeeds on the first kind only. *)
Inductive Actor : Type :=
  | IsVehicle (vehicle : Vehicle)
  | IsOther (id : ActorId).

Definition as_vehicle (parent : option Actor) : option Vehicle :=
  match parent with
  | Some (IsVehicle vehicle) => Some vehicle
  | _ => None
  end.

(** A call the sensor makes outside itself. *)
Inductive call : Type :=
  | RegisterOnTickEvent (id : N) (* with the identifier it returned *)
  | RemoveOnTickEvent (id : N)
  | log_error (args : list string).

Section Sensor.

Variable LaneMarking : Type.

(** Modelled from the spec: the episode ([carla::client::detail::Simulator])
    is not among the sources.  It keeps the registered tick handlers, each
    under the identifier [RegisterOnTickEvent] returned for it, which is
    never 0; [RemoveOnTickEvent] drops the handler with a given identifier. *)
Record Episode : Type := {
  on_tick : list (N * LaneInvasionCallback LaneMarking);
  last_id : N;
  GetCurrentMap : Location -> Location -> list LaneMarking
}.

Definition register (cb : LaneInvasionCallback LaneMarking) (episode : Episode) : N * Episode :=
  let id := N.succ (last_id episode) in
  (id, {| on_tick := on_tick episode ++ [(id, cb)];
          last_id := id;
          GetCurrentMap := GetCurrentMap episode |}).

Definition remove (id : N) (episode : Episode) : Episode :=
  {| on_tick := filter (fun entry => negb (fst entry =? id)%N) (on_tick episode);
     last_id := last_id episode;
     GetCurrentMap := GetCurrentMap episode |}.

(** The identifiers of the handlers registered with an episode. *)
Definition registered (episode : Episode) : list N := map fst (on_tick episode).

(** A sensor, and the episode its [GetEpisode()] refers to.  The reference
    is weak: [lockable] tells whether [Lock] and [TryLock] still obtain the
    episode. *)
Record World : Type := {
  GetParent : option Actor;
  GetDisplayId : string;
  _callback_id : N;
  episode : Episode;
  lockable : bool
}.

Definition with_callback_id (id : N) (episode' : Episode) (w : World) : World :=
  {| GetParent := GetParent w;
     GetDisplayId := GetDisplayId w;
     _callback_id := id;
     episode := episode';
     lockable := lockable w |}.

(** Modelled from the spec: [EpisodeProxy::Lock] is not among the sources; it
    throws a [std::runtime_error] when the episode is gone. *)
Definition destroyed_episode : exn :=
  StdException "trying to operate on a destroyed actor".

(** [LaneInvasionSensor::Listen] *)
Definition Listen (callback : LaneInvasionEvent LaneMarking -> completion) (w : World)
  : completion * World * list call :=
  match as_vehicle (GetParent w) with
  | None => (Returned, w, [log_error [GetDisplayId w; ": not attached to a vehicle"%string]])
  | Some vehicle =>
      if lockable w then
        let cb := {| _parent := GetId vehicle;
                     _parent_bounding_box := GetBoundingBox vehicle;
                     CalculateCrossedLanes := GetCurrentMap (episode w);
                     _callback := callback |} in
        let (callback_id, episode1) := register cb (episode w) in
        let previous := _callback_id w in
        if negb (previous =? 0)%N
        then (Returned, with_callback_id callback_id (remove previous episode1) w,
              [RegisterOnTickEvent callback_id; RemoveOnTickEvent previous])
        else (Returned, with_callback_id callback_id episode1 w,
              [RegisterOnTickEvent callback_id])
      else (Threw destroyed_episode, w, [])
  end.

(** [LaneInvasionSensor::Stop] *)
Definition Stop (w : World) : World * list call :=
  let previous := _callback_id w in
  if negb (previous =? 0)%N && lockable w
  then (with_callback_id 0 (remove previous (episode w)) w, [RemoveOnTickEvent previous])
  else (with_callback_id 0 (episode w) w, []).

(** The last owner of the episode lets it go. *)
Definition expire (w : World) : World :=
  {| GetParent := GetParent w;
     GetDisplayId := GetDisplayId w;
     _callback_id := _callback_id w;
     episode := episode w;
     lockable := false |}.

(** The registration a stored identifier stands for; 0 stands for none. *)
Definition own (id : N) : list N := if (id =? 0)%N then [] else [id].

(** The episode holds the handlers of the others, then the one of this
    sensor if it has one; identifiers are distinct, positive, and not above
    the last one handed out. *)
Record tidy (others : list N) (w : World) : Prop := {
  tidy_registered : registered (episode w) = others ++ own (_callback_id w);
  tidy_distinct : NoDup (registered (episode w));
  tidy_range : Forall (fun id => 0 < id <= last_id (episode w))%N (registered (episode w))
}.

(** The handler [Listen] makes for a vehicle. *)
Definition handler_for (callback : LaneInvasionEvent LaneMarking -> completion)
    (vehicle : Vehicle) (w : World) : LaneInvasionCallback LaneMarking :=
  {| _parent := GetId vehicle;
     _parent_bounding_box := GetBoundingBox vehicle;
     CalculateCrossedLanes := GetCurrentMap (episode w);
     _callback := callback |}.

(** The calls a client makes on the sensor. *)
Inductive request : Type :=
  | DoListen (callback : LaneInvasionEvent LaneMarking -> completion)
  | DoStop.

Definition serve (w : World) (r : request) : World :=
  match r with
  | DoListen callback => snd (fst (Listen callback w))
  | DoStop => fst (Stop w)
  end.

Definition serve_all (requests : list request) (w : World) : World :=
  fold_left serve requests w.

(** The handlers of an episode that this sensor registered and has not
    removed: those that are registered now and were not at the start. *)
Definition live (others : list N) (w : World) : list N :=
  filter (fun id => negb (existsb (N.eqb id) others)) (registered (episode w)).

End Sensor.

Arguments DoStop {LaneMarking}.

(** ** A vehicle on a road, for evaluating the detector *)

Module Example.

(** A lane marking is described by a word here. *)
Definition Marking : Type := string.

(** A car five metres long and two metres wide. *)
Definition box : BoundingBox :=
  {| box_location := MkVector3D F32.zero F32.zero F32.zero;
     extent := MkVector3D (F32.of_scaled 5 (-1)) F32.one F32.one |}.

Definition car : ActorId := 7%N.

(** The car at [(px, py, 0)], heading along the first axis. *)
Definition at_position (px py : F32.float) : Transform :=
  {| location := MkVector3D px py F32.zero;
     rotation := {| pitch := F32.zero; yaw := F32.zero; roll := F32.zero |} |}.

Definition car_at (placed : Transform) : ActorSnapshot.t :=
  {| ActorSnapshot.id := car; ActorSnapshot.transform := placed |}.

(** The world at frame [n], one second per frame, with the car alone. *)
Definition world (n : N) (placed : Transform) : WorldSnapshot.t :=
  {| WorldSnapshot.GetTimestamp :=
       {| Timestamp.frame := n; Timestamp.elapsed_seconds := F32.of_Z (Z.of_N n) |};
     WorldSnapshot.Find := fun id => if (id =? car)%N then Some (car_at placed) else None |}.

(** The world at frame [n] after the car has been destroyed. *)
Definition empty_world (n : N) : WorldSnapshot.t :=
  {| WorldSnapshot.GetTimestamp :=
       {| Timestamp.frame := n; Timestamp.elapsed_seconds := F32.of_Z (Z.of_N n) |};
     WorldSnapshot.Find := fun _ => None |}.

(** A road with one solid line: the points with second coordinate zero and
    positive first coordinate.  A segment that starts over the positive first
    axis crosses the line when its ends lie on different sides of it. *)
Definition solid_line (a b : Location) : list Marking :=
  if (F32.zero <? x a)%f32 && xorb (y a <? F32.zero)%f32 (y b <? F32.zero)%f32
  then ["Solid"%string]
  else [].

(** Subscribers: one that returns, one that throws a [std::runtime_error],
    and one that throws an [int]. *)
Definition quiet (_ : LaneInvasionEvent Marking) : completion := Returned.

Definition failing (_ : LaneInvasionEvent Marking) : completion :=
  Threw (StdException "subscriber failed").


Definition detector (callback : LaneInvasionEvent Marking -> completion)
  : LaneInvasionCallback Marking :=
  {| _parent := car;
     _parent_bounding_box := box;
     CalculateCrossedLanes := solid_line;
     _callback := callback |}.

(** The store of the detector after a first tick at frame [n]. *)
Definition baseline (n : N) (placed : Transform) : Store :=
  snd (fst (Tick taylor_libm (detector quiet) (world n placed) fresh_store)).

(** Binary32 numbers used below: 63, its successor [63 + 2^-18], and a few
    small ones. *)
Definition f63 : F32.float := F32.of_Z 63.
Definition f63_next : F32.float := F32.of_scaled 16515073 (-18).
Definition half : F32.float := F32.of_scaled 1 (-1).
Definition three_halves : F32.float := F32.of_scaled 3 (-1).

(** The car creeping forward by the smallest step binary32 has at 63 metres,
    about four micrometres. *)
Definition at_63 : Transform := at_position f63 F32.zero.
Definition past_63 : Transform := at_position f63_next F32.zero.

(** The car across the line: its right side moves from half a metre on one
    side of the first axis to half a metre on the other side. *)
Definition before_line : Transform := at_position F32.zero half.
Definition after_line : Transform := at_position F32.zero three_halves.

(** The snapshots that ticks at frames 1 and 2 build there, the first at
    address 0 and the second at address 1. *)
Definition snapshot_before : BoundsPtr :=
  {| addr := 0; pointee := MakeBounds taylor_libm box 1 before_line |}.
Definition snapshot_after : BoundsPtr :=
  {| addr := 1; pointee := MakeBounds taylor_libm box 2 after_line |}.

(** The car moved one metre forward instead, beside the line. *)
Definition beside_line : Transform := at_position F32.one half.
Definition snapshot_beside : BoundsPtr :=
  {| addr := 1; pointee := MakeBounds taylor_libm box 2 beside_line |}.

(** The store once [snapshot_before] is committed and both addresses are
    taken. *)
Definition store_before : Store := {| _bounds := Some snapshot_before; next_addr := 2 |}.

(** A lane-invasion sensor attached to the car, in an episode where another
    sensor has registered a handler under the identifier 1. *)
Definition other_handler : LaneInvasionCallback Marking :=
  {| _parent := 8%N; _parent_bounding_box := box;
     CalculateCrossedLanes := solid_line; _callback := quiet |}.

Definition attached : World Marking :=
  {| GetParent := Some (IsVehicle {| GetId := car; GetBoundingBox := box |});
     GetDisplayId := "sensor.other.lane_invasion";
     _callback_id := 0%N;
     episode := {| on_tick := [(1%N, other_handler)]; last_id := 1%N;
                   GetCurrentMap := solid_line |};
     lockable := true |}.

(** The sensor after [Listen]. *)
Definition listening : World Marking := snd (fst (Listen quiet attached)).



(** Three ticks: the first sets the baseline before the line; then the ticks
    of frames 3 and 2, both with the car after the line, read that baseline,
    the tick of frame 2 commits, and the tick of frame 3 loses its exchange
    and refreshes [prev]. *)
Definition late_tick_schedule : list action :=
  [Dispatch (world 1 before_line); Advance 0; Advance 0;
   Dispatch (world 3 after_line); Dispatch (world 2 after_line);
   Advance 1; Advance 2; Advance 2; Advance 1].

Definition snapshot_late : BoundsPtr :=
  {| addr := 1; pointee := MakeBounds taylor_libm box 3 after_line |}.
Definition snapshot_early : BoundsPtr :=
  {| addr := 2; pointee := MakeBounds taylor_libm box 2 after_line |}.

(** The event of frame 2 for the solid line. *)
Definition solid_event : LaneInvasionEvent Marking :=
  {| event_frame := 2;
     event_timestamp := F32.of_Z 2;
     event_transform := after_line;
     event_parent := car;
     event_crossed_lane_markings := ["Solid"%string] |}.

End Example.

(** * Meshes ([carla/geom/Mesh.cpp]) *)

Module Vector2D.
(** [geom::Vector2D], the type of texture coordinates. *)
Record t : Type := { x : F32.float; y : F32.float }.
End Vector2D.

Module MeshMaterial.
(** [geom::MeshMaterial]: a name and the range of indexes it covers;
    [index_end] is 0 as long as the material is open. *)
Record t : Type := { name : string; index_start : N; index_end : N }.
End MeshMaterial.

(** [std::vector::size], [empty] and [back]. *)
Definition size {A : Type} (l : list A) : N := N.of_nat (List.length l).

Definition empty {A : Type} (l : list A) : bool :=
  match l with
  | [] => true
  | _ :: _ => false
  end.

Fixpoint back {A : Type} (l : list A) : option A :=
  match l with
  | [] => None
  | [a] => Some a
  | _ :: l => back l
  end.

(** [std::endl], as far as the text goes. *)
Definition endl : string := String (Ascii.ascii_of_nat 10) EmptyString.

Module Mesh.

(** The members of [geom::Mesh]. *)
Record t : Type := {
  _vertices : list Vector3D;
  _normals : list Vector3D;
  _indexes : list N;
  _uvs : list Vector2D.t;
  _materials : list MeshMaterial.t
}.

Definition empty_mesh : t :=
  {| _vertices := []; _normals := []; _indexes := []; _uvs := []; _materials := [] |}.

(** Modelled from the spec: [Mesh::GetVerticesNum] is defined in
    [carla/geom/Mesh.h], which is not among the sources; it is the number of
    vertices. *)
Definition GetVerticesNum (m : t) : N := size (_vertices m).

(** [Mesh::IsValid]: its result, and the lines it writes to [std::cout]. *)
Definition IsValid (m : t) : bool * list string :=
  if empty (_vertices m)
  then (false, ["Mesh validation error: there are no vertices in the mesh."%string])
  else if negb (empty (_indexes m)) && negb (size (_indexes m) mod 3 =? 0)%N
  then (false, ["Mesh validation error: the index amount must be multiple of 3."%string])
  else if negb (empty (_materials m))
          && match back (_materials m) with
             | Some material => (MeshMaterial.index_end material =? 0)%N
             | None => false
             end
  then (false, ["Mesh validation error: last material was not closed."%string])
  else (true, []).

Definition AddVertex (vertex : Vector3D) (m : t) : t :=
  {| _vertices := _vertices m ++ [vertex]; _normals := _normals m; _indexes := _indexes m;
     _uvs := _uvs m; _materials := _materials m |}.

Definition AddVertices (vertices : list Vector3D) (m : t) : t :=
  {| _vertices := _vertices m ++ vertices; _normals := _normals m; _indexes := _indexes m;
     _uvs := _uvs m; _materials := _materials m |}.

Definition AddNormal (normal : Vector3D) (m : t) : t :=
  {| _vertices := _vertices m; _normals := _normals m ++ [normal]; _indexes := _indexes m;
     _uvs := _uvs m; _materials := _materials m |}.

Definition AddIndex (index : N) (m : t) : t :=
  {| _vertices := _vertices m; _normals := _normals m; _indexes := _indexes m ++ [index];
     _uvs := _uvs m; _materials := _materials m |}.

Definition AddUV (uv : Vector2D.t) (m : t) : t :=
  {| _vertices := _vertices m; _normals := _normals m; _indexes := _indexes m;
     _uvs := _uvs m ++ [uv]; _materials := _materials m |}.

Definition AddUVs (uv : list Vector2D.t) (m : t) : t :=
  {| _vertices := _vertices m; _normals := _normals m; _indexes := _indexes m;
     _uvs := _uvs m ++ uv; _materials := _materials m |}.

(** The loop of [AddTriangleStrip], with a bound on its iterations. *)
Fixpoint strip_loop (fuel : nat) (i : N) (index_clockwise : bool) (m : t) : t :=
  match fuel with
  | O => m
  | S fuel =>
      if (i <? GetVerticesNum m)%N
      then
        let index_clockwise := negb index_clockwise in
        let m :=
          if index_clockwise
          then AddIndex (i - 1) (AddIndex i (AddIndex (i + 1) m))
          else AddIndex (i + 1) (AddIndex i (AddIndex (i - 1) m)) in
        strip_loop fuel (i + 1)%N index_clockwise m
      else m
  end.

(** [Mesh::AddTriangleStrip].  Its [DEBUG_ASSERT] is compiled away in a
    release build.  The loop runs once for each new vertex but the first two,
    so the number of new vertices bounds its iterations. *)
Definition AddTriangleStrip (vertices : list Vector3D) (m : t) : t :=
  if (size vertices =? 0)%N then m
  else
    let i := (GetVerticesNum m + 2)%N in
    let m := AddVertices vertices m in
    strip_loop (List.length vertices) i true m.

(** The loop of [AddTriangleFan], with a bound on its iterations. *)
Fixpoint fan_loop (fuel : nat) (initial_index i : N) (m : t) : t :=
  match fuel with
  | O => m
  | S fuel =>
      if (i <? GetVerticesNum m)%N
      then fan_loop fuel initial_index (i + 1)%N
             (AddIndex (i + 1) (AddIndex i (AddIndex initial_index m)))
      else m
  end.

(** [Mesh::AddTriangleFan] *)
Definition AddTriangleFan (vertices : list Vector3D) (m : t) : t :=
  let initial_index := (GetVerticesNum m + 1)%N in
  let i := (GetVerticesNum m + 2)%N in
  let m := AddVertices vertices m in
  fan_loop (List.length vertices) initial_index i m.

(** [_materials.back().index_end = close_index] *)
Definition close_back (close_index : N) (materials : list MeshMaterial.t)
  : list MeshMaterial.t :=
  match back materials with
  | None => materials
  | Some material =>
      removelast materials
      ++ [{| MeshMaterial.name := MeshMaterial.name material;
             MeshMaterial.index_start := MeshMaterial.index_start material;
             MeshMaterial.index_end := close_index |}]
  end.

(** [Mesh::EndMaterial] *)
Definition EndMaterial (m : t) : t :=
  let close_index := size (_indexes m) in
  match back (_materials m) with
  | None => m
  | Some material =>
      if (MeshMaterial.index_start material =? close_index)%N
         || negb (MeshMaterial.index_end material =? 0)%N
      then m
      else if empty (_indexes m) || negb (close_index mod 3 =? 0)%N
      then m
      else {| _vertices := _vertices m; _normals := _normals m; _indexes := _indexes m;
              _uvs := _uvs m; _materials := close_back close_index (_materials m) |}
  end.

(** [Mesh::AddMaterial]: the mesh, and the lines written to [std::cout]. *)
Definition AddMaterial (material_name : string) (m : t) : t * list string :=
  let open_index := size (_indexes m) in
  let m :=
    match back (_materials m) with
    | Some material => if (MeshMaterial.index_end material =? 0)%N then EndMaterial m else m
    | None => m
    end in
  if negb (open_index mod 3 =? 0)%N
  then (m, ["open_index % 3 != 0"%string])
  else ({| _vertices := _vertices m; _normals := _normals m; _indexes := _indexes m;
           _uvs := _uvs m;
           _materials := _materials m
                         ++ [{| MeshMaterial.name := material_name;
                                MeshMaterial.index_start := open_index;
                                MeshMaterial.index_end := 0 |}] |}, []).

Section ObjText.

(** What [out << value] writes for a [float] once [std::fixed] is set.  The
    text comes from the C++ library, so the export is parameterised by it. *)
Variable show_float : F32.float -> string.

(** What [out << value] writes for a [size_t]: its decimal digits. *)
Definition show_size (n : N) : string := NilZero.string_of_uint (N.to_uint n).

Definition vertex_line (v : Vector3D) : string :=
  ("v " ++ show_float (x v) ++ " " ++ show_float (y v) ++ " " ++ show_float (z v) ++ endl)%string.

Definition uv_line (vt : Vector2D.t) : string :=
  ("vt " ++ show_float (Vector2D.x vt) ++ " " ++ show_float (Vector2D.y vt) ++ endl)%string.

Definition normal_line (vn : Vector3D) : string :=
  ("vn " ++ show_float (x vn) ++ " " ++ show_float (y vn) ++ " " ++ show_float (z vn)
   ++ endl)%string.

(** The loop over [_indexes] of [GenerateOBJ]: [it] is what is left of the
    indexes and [it_m] what is left of the materials.  An iteration reads
    three indexes without looking for the end; [None] stands for a read past
    the end of [_indexes]. *)
Fixpoint faces (it : list N) (it_m : list MeshMaterial.t) (index_counter : N)
  : option string :=
  match it with
  | [] => Some ""%string
  | a :: b :: c :: it =>
      let it_m :=
        match it_m with
        | material :: rest =>
            if (MeshMaterial.index_end material =? index_counter)%N then rest else it_m
        | [] => it_m
        end in
      let usemtl :=
        match it_m with
        | material :: _ =>
            if (MeshMaterial.index_start material =? index_counter)%N
            then (endl ++ "usemtl " ++ MeshMaterial.name material ++ endl)%string
            else ""%string
        | [] => ""%string
        end in
      match faces it it_m (index_counter + 3)%N with
      | Some rest =>
          Some (usemtl ++ "f " ++ show_size a ++ " " ++ show_size b ++ " " ++ show_size c
                ++ endl ++ rest)%string
      | None => None
      end
  | _ => None
  end.

(** [Mesh::GenerateOBJ]: the text, or [None] for a read past the end of
    [_indexes], and the lines written to [std::cout]. *)
Definition GenerateOBJ (m : t) : option string * list string :=
  let (valid, printed) := IsValid m in
  if negb valid then (Some ""%string, printed)
  else
    let vertices :=
      ("# List of geometric vertices, with (x, y, z) coordinates." ++ endl
       ++ String.concat "" (map vertex_line (_vertices m)))%string in
    let uvs :=
      if negb (empty (_uvs m))
      then (endl ++ "# List of texture coordinates, in (u, v) coordinates." ++ endl
            ++ String.concat "" (map uv_line (_uvs m)))%string
      else ""%string in
    let normals :=
      if negb (empty (_normals m))
      then (endl
            ++ "# List of vertex normals in (x, y, z) form; normals might not be unit vectors."
            ++ endl ++ String.concat "" (map normal_line (_normals m)))%string
      else ""%string in
    if negb (empty (_indexes m))
    then match faces (_indexes m) (_materials m) 0 with
         | Some polygons =>
             (Some (vertices ++ uvs ++ normals
                    ++ endl ++ "# Polygonal face element." ++ endl ++ polygons)%string,
              printed)
         | None => (None, printed)
         end
    else (Some (vertices ++ uvs ++ normals)%string, printed).

End ObjText.

(** The calls that build a mesh. *)
Inductive op : Type :=
  | OpAddVertex (vertex : Vector3D)
  | OpAddVertices (vertices : list Vector3D)
  | OpAddNormal (normal : Vector3D)
  | OpAddIndex (index : N)
  | OpAddUV (uv : Vector2D.t)
  | OpAddUVs (uv : list Vector2D.t)
  | OpAddTriangleStrip (vertices : list Vector3D)
  | OpAddTriangleFan (vertices : list Vector3D)
  | OpAddMaterial (material_name : string)
  | OpEndMaterial.

Definition apply (m : t) (o : op) : t :=
  match o with
  | OpAddVertex vertex => AddVertex vertex m
  | OpAddVertices vertices => AddVertices vertices m
  | OpAddNormal normal => AddNormal normal m
  | OpAddIndex index => AddIndex index m
  | OpAddUV uv => AddUV uv m
  | OpAddUVs uv => AddUVs uv m
  | OpAddTriangleStrip vertices => AddTriangleStrip vertices m
  | OpAddTriangleFan vertices => AddTriangleFan vertices m
  | OpAddMaterial material_name => fst (AddMaterial material_name m)
  | OpEndMaterial => EndMaterial m
  end.

Definition build (ops : list op) (m : t) : t := fold_left apply ops m.

(** Calls other than [AddIndex], which puts any number among the indexes. *)
Definition by_triangles (o : op) : Prop :=
  match o with
  | OpAddIndex _ => False
  | _ => True
  end.

(** The indexes the loop of [AddTriangleStrip] adds in [count] iterations. *)
Fixpoint strip_indexes (count : nat) (i : N) (index_clockwise : bool) : list N :=
  match count with
  | O => []
  | S count =>
      (if negb index_clockwise then [i + 1; i; i - 1] else [i - 1; i; i + 1])%N
      ++ strip_indexes count (i + 1)%N (negb index_clockwise)
  end.

(** The indexes the loop of [AddTriangleFan] adds in [count] iterations. *)
Fixpoint fan_indexes (count : nat) (initial_index i : N) : list N :=
  match count with
  | O => []
  | S count => [initial_index; i; i + 1]%N ++ fan_indexes count initial_index (i + 1)%N
  end.

(** A material covers whole triangles that exist: it starts at a multiple of
    3 not beyond the indexes, and once closed it ends after its start, at a
    multiple of 3 not beyond the indexes. *)
Definition material_ok (n : N) (material : MeshMaterial.t) : Prop :=
  (MeshMaterial.index_start material mod 3 = 0
   /\ MeshMaterial.index_start material <= n
   /\ (MeshMaterial.index_end material = 0
       \/ (MeshMaterial.index_start material < MeshMaterial.index_end material
           /\ MeshMaterial.index_end material <= n
           /\ MeshMaterial.index_end material mod 3 = 0)))%N.

(** A material comes before another: it starts and ends no later than the
    other starts. *)
Definition precedes (a b : MeshMaterial.t) : Prop :=
  (MeshMaterial.index_start a <= MeshMaterial.index_start b
   /\ MeshMaterial.index_end a <= MeshMaterial.index_start b)%N.

(** What the calls other than [AddIndex] keep true of a mesh. *)
Record well_formed (m : t) : Prop := {
  indexes_in_range : Forall (fun index => 1 <= index <= GetVerticesNum m)%N (_indexes m);
  indexes_by_three : (size (_indexes m) mod 3 = 0)%N;
  materials_ok : Forall (material_ok (size (_indexes m))) (_materials m);
  materials_in_order : StronglySorted precedes (_materials m)
}.

End Mesh.

(** A unit square in the ground plane, for evaluating the mesh builder. *)
Module MeshExample.

Definition corner (cx cy : Z) : Vector3D :=
  MkVector3D (F32.of_Z cx) (F32.of_Z cy) F32.zero.

Definition square : list Vector3D := [corner 0 0; corner 1 0; corner 0 1; corner 1 1].

End MeshExample.

(** * Walkers ([carla/client/Walker.cpp]) *)

Module Walker.

Section Control.

(** [Walker::Control], and its [operator!=]; both come from
    [carla/rpc/WalkerControl.h], which is not among the sources. *)
Variable Control : Type.
Variable differs : Control -> Control -> bool.

(** The member [_control], and whether [GetEpisode().Lock()] still obtains
    the episode. *)
Record t : Type := { _control : Control; alive : bool }.

(** [Walker::ApplyControl]: how the call ends, the walker, and the controls
    passed to [ApplyControlToWalker]. *)
Definition ApplyControl (control : Control) (w : t) : completion * t * list Control :=
  if differs control (_control w)
  then if alive w
       then (Returned, {| _control := control; alive := alive w |}, [control])
       else (Threw destroyed_episode, w, [])
  else (Returned, w, []).

(** Calls of [ApplyControl] one after the other, up to the first that
    throws. *)
Fixpoint ApplyControls (controls : list Control) (w : t) : completion * t * list Control :=
  match controls with
  | [] => (Returned, w, [])
  | control :: controls =>
      let '(c, w, sent) := ApplyControl control w in
      match c with
      | Returned =>
          let '(c, w, sent') := ApplyControls controls w in (c, w, sent ++ sent')
      | Threw _ => (c, w, sent)
      end
  end.

(** Each control of the list differs from the one before it, the first one
    from [previous]. *)
Fixpoint each_differs (previous : Control) (sent : list Control) : Prop :=
  match sent with
  | [] => True
  | control :: sent => differs control previous = true /\ each_differs control sent
  end.

End Control.

End Walker.

(** ** A tick that runs alone *)

Section TickAlone.

Variable libm : Libm.
Variable LaneMarking : Type.
Variable cb : LaneInvasionCallback LaneMarking.

Lemma same_pointer_refl (p : option BoundsPtr) : same_pointer p p = true.
Proof. destruct p as [p|]; simpl; [apply N.eqb_refl | reflexivity]. Qed.

Lemma step_entry_absent snapshot st :
  WorldSnapshot.Find snapshot (_parent cb) = None ->
  step libm cb (AtEntry snapshot) st = (Finished Returned, st, []).
Proof. intros Hfind. cbn [step]. rewrite Hfind. reflexivity. Qed.

Lemma step_entry_first snapshot parent st :
  WorldSnapshot.Find snapshot (_parent cb) = Some parent ->
  _bounds st = None ->
  step libm cb (AtEntry snapshot) st
  = (AtBaseline snapshot parent (built libm cb snapshot parent st), kept st, []).
Proof.
  intros Hfind Hslot. cbn [step]. rewrite Hfind.
  unfold make_shared, load, kept, built. cbn [_bounds]. rewrite Hslot. reflexivity.
Qed.

Lemma step_entry_later snapshot parent prev st :
  WorldSnapshot.Find snapshot (_parent cb) = Some parent ->
  _bounds st = Some prev ->
  step libm cb (AtEntry snapshot) st
  = (check_distance snapshot parent (Some prev) (built libm cb snapshot parent st), kept st, []).
Proof.
  intros Hfind Hslot. cbn [step]. rewrite Hfind.
  unfold make_shared, load, kept, built. cbn [_bounds]. rewrite Hslot. reflexivity.
Qed.

Lemma step_baseline_empty snapshot parent next st :
  _bounds st = None ->
  step libm cb (AtBaseline snapshot parent next) st
  = (Finished Returned, {| _bounds := Some next; next_addr := next_addr st |}, []).
Proof.
  intros Hslot. cbn [step]. unfold compare_exchange. rewrite Hslot. reflexivity.
Qed.

Lemma step_baseline_taken snapshot parent next current st :
  _bounds st = Some current ->
  step libm cb (AtBaseline snapshot parent next) st
  = (check_distance snapshot parent (Some current) next, st, []).
Proof.
  intros Hslot. cbn [step]. unfold compare_exchange. rewrite Hslot. reflexivity.
Qed.

Lemma step_commit_stale snapshot parent prev next st :
  (frame (pointee next) <= frame (pointee prev))%N ->
  step libm cb (AtCommit snapshot parent prev next) st = (Finished Returned, st, []).
Proof.
  intros Hle. cbn [step]. apply N.leb_le in Hle. rewrite Hle. reflexivity.
Qed.

Lemma step_commit_exchanged snapshot parent prev next current st :
  (frame (pointee prev) < frame (pointee next))%N ->
  _bounds st = Some current ->
  addr current = addr prev ->
  step libm cb (AtCommit snapshot parent prev next) st
  = (fst (report cb snapshot parent prev next),
     {| _bounds := Some next; next_addr := next_addr st |},
     snd (report cb snapshot parent prev next)).
Proof.
  intros Hlt Hslot Haddr. cbn [step]. apply N.leb_gt in Hlt. rewrite Hlt.
  unfold compare_exchange. rewrite Hslot. cbn [same_pointer]. rewrite Haddr, N.eqb_refl.
  destruct (report cb snapshot parent prev next). reflexivity.
Qed.

Lemma step_commit_lost snapshot parent prev next current st :
  (frame (pointee prev) < frame (pointee next))%N ->
  _bounds st = Some current ->
  addr current <> addr prev ->
  step libm cb (AtCommit snapshot parent prev next) st
  = (AtCommit snapshot parent current next, st, []).
Proof.
  intros Hlt Hslot Haddr. cbn [step]. apply N.leb_gt in Hlt. rewrite Hlt.
  unfold compare_exchange. rewrite Hslot. cbn [same_pointer].
  apply N.eqb_neq in Haddr. rewrite Haddr. reflexivity.
Qed.

Lemma Tick_two_steps snapshot st :
  Tick libm cb snapshot st =
    let '(t1, st1, effects1) := step libm cb (AtEntry snapshot) st in
    let '(t2, st2, effects2) := step libm cb t1 st1 in
    (t2, st2, effects1 ++ effects2).
Proof.
  unfold Tick. cbn [run].
  destruct (step libm cb (AtEntry snapshot) st) as [[t1 st1] effects1].
  destruct (step libm cb t1 st1) as [[t2 st2] effects2].
  rewrite app_nil_r. reflexivity.
Qed.

Lemma Tick_absent snapshot st :
  WorldSnapshot.Find snapshot (_parent cb) = None ->
  Tick libm cb snapshot st = (Finished Returned, st, []).
Proof.
  intros Hfind. rewrite Tick_two_steps, (step_entry_absent _ _ Hfind). reflexivity.
Qed.

Lemma Tick_first snapshot parent st :
  WorldSnapshot.Find snapshot (_parent cb) = Some parent ->
  _bounds st = None ->
  Tick libm cb snapshot st
  = (Finished Returned, committed (built libm cb snapshot parent st) st, []).
Proof.
  intros Hfind Hslot. rewrite Tick_two_steps, (step_entry_first _ _ Hfind Hslot).
  rewrite step_baseline_empty by exact Hslot. reflexivity.
Qed.

Lemma Tick_later snapshot parent prev st :
  WorldSnapshot.Find snapshot (_parent cb) = Some parent ->
  _bounds st = Some prev ->
  Tick libm cb snapshot st =
    let next := built libm cb snapshot parent st in
    if too_close (pointee prev) (pointee next) then (Finished Returned, kept st, [])
    else if (frame (pointee next) <=? frame (pointee prev))%N
         then (Finished Returned, kept st, [])
         else (fst (report cb snapshot parent prev next), committed next st,
               snd (report cb snapshot parent prev next)).
Proof.
  intros Hfind Hslot. cbv zeta.
  rewrite Tick_two_steps, (step_entry_later _ _ Hfind Hslot). unfold check_distance.
  destruct (too_close _ _); [reflexivity|].
  destruct (N.leb_spec (frame (pointee (built libm cb snapshot parent st))) (frame (pointee prev)))
    as [Hle|Hlt].
  - rewrite step_commit_stale by exact Hle. reflexivity.
  - rewrite (@step_commit_exchanged _ _ _ _ prev) by (exact Hlt || reflexivity || exact Hslot).
    reflexivity.
Qed.

Lemma report_finishes snapshot parent prev next :
  exists c, fst (report cb snapshot parent prev next) = Finished c.
Proof.
  unfold report. destruct (crossed_lanes cb (pointee prev) (pointee next)); simpl; eauto.
Qed.

(** Two steps are enough for a tick that runs alone: it always ends. *)
Lemma Tick_finishes snapshot st :
  exists c, fst (fst (Tick libm cb snapshot st)) = Finished c.
Proof.
  destruct (WorldSnapshot.Find snapshot (_parent cb)) as [parent|] eqn:Hfind.
  - destruct (_bounds st) as [prev|] eqn:Hslot.
    + rewrite (Tick_later _ _ Hfind Hslot). cbv zeta.
      destruct (too_close _ _); [simpl; eauto|].
      destruct (_ <=? _)%N; [simpl; eauto|]. simpl. apply report_finishes.
    + rewrite (Tick_first _ _ Hfind Hslot). simpl; eauto.
  - rewrite (Tick_absent _ _ Hfind). simpl; eauto.
Qed.

End TickAlone.


(** ** Ticks that run interleaved: the invariant *)

Lemma In_replace_nth {A : Type} (i : nat) (a x : A) (l : list A) :
  In x (replace_nth i a l) -> x = a \/ In x l.
Proof.
  revert i. induction l as [|b l IH]; intros [|i]; simpl; try tauto.
  - intros [H|H]; auto.
  - intros [H|H]; auto. destruct (IH _ H); auto.
Qed.

Lemma Forall_replace_nth {A : Type} (P : A -> Prop) (i : nat) (a : A) (l : list A) :
  P a -> Forall P l -> Forall P (replace_nth i a l).
Proof.
  intros Ha Hl. revert i. induction Hl as [|b l Hb Hl IH]; intros [|i]; simpl; auto.
Qed.

Section InterleavingFacts.

Variable libm : Libm.
Variable LaneMarking : Type.
Variable cb : LaneInvasionCallback LaneMarking.

Lemma owned_check_distance snapshot parent prev next p :
  In p (owned (check_distance snapshot parent (Some prev) next)) -> p = prev \/ p = next.
Proof.
  unfold check_distance. destruct (too_close _ _); simpl; intuition.
Qed.

Lemma check_distance_not_null snapshot parent prev next :
  check_distance snapshot parent (Some prev) next <> NullDereference.
Proof. unfold check_distance. destruct (too_close _ _); discriminate. Qed.

Lemma fresh_of_addr t st p : fresh_of libm cb t st = Some p -> addr p = next_addr st.
Proof.
  destruct t; simpl; try discriminate.
  destruct (WorldSnapshot.Find _ _); [|discriminate]. intros [= <-]. reflexivity.
Qed.

Lemma step_cases t st : step_case libm cb t st (step libm cb t st).
Proof.
  destruct t as [snapshot|snapshot parent next|snapshot parent prev next|c|].
  - destruct (WorldSnapshot.Find snapshot (_parent cb)) as [parent|] eqn:Hfind.
    + destruct (_bounds st) as [prev|] eqn:Hslot.
      * erewrite step_entry_later by eassumption.
        eapply case_later; eauto. simpl. rewrite Hfind. reflexivity.
      * erewrite step_entry_first by eassumption.
        eapply case_first; eauto. simpl. rewrite Hfind. reflexivity.
    + erewrite step_entry_absent by eassumption.
      eapply case_absent; eauto. simpl. rewrite Hfind. reflexivity.
  - destruct (_bounds st) as [current|] eqn:Hslot.
    + erewrite step_baseline_taken by exact Hslot. eapply case_taken; eauto.
    + erewrite step_baseline_empty by exact Hslot. eapply case_baseline; eauto.
  - destruct (N.leb_spec (frame (pointee next)) (frame (pointee prev))) as [Hle|Hlt].
    + rewrite step_commit_stale by exact Hle. eapply case_stale; eauto.
    + destruct (_bounds st) as [current|] eqn:Hslot.
      * destruct (N.eq_dec (addr current) (addr prev)) as [Heq|Hne].
        -- erewrite step_commit_exchanged by eassumption.
           eapply case_exchanged; eauto.
        -- erewrite step_commit_lost by eassumption. eapply case_lost; eauto.
      * cbn [step]. apply N.leb_gt in Hlt. rewrite Hlt.
        unfold compare_exchange. rewrite Hslot. cbn [same_pointer].
        apply N.leb_gt in Hlt. eapply case_null; eauto.
  - apply case_idle; simpl; auto.
  - apply case_idle; simpl; auto.
Qed.

Ltac step_inversion H :=
  inversion H; subst; clear H; cbn [_bounds next_addr kept owned In] in *.

(** A step moves snapshots between the slot and the tick; only the entry of
    a tick makes a new one. *)
Lemma step_within t st t' st' effects p :
  step libm cb t st = (t', st', effects) ->
  within st' t' p ->
  within st t p \/ fresh_of libm cb t st = Some p.
Proof.
  intros Hstep. pose proof (step_cases t st) as Hcase. rewrite Hstep in Hcase.
  unfold within. step_inversion Hcase; intros Hp;
    try (destruct Hp as [Hp|Hp]; [|apply owned_check_distance in Hp]);
    try tauto; try (intuition congruence).
  - destruct (report_finishes cb snapshot parent prev next) as [c Hc].
    rewrite Hc in Hp. cbn [owned In] in Hp. intuition congruence.
Qed.

Lemma step_next_addr t st t' st' effects :
  step libm cb t st = (t', st', effects) ->
  next_addr st' = match fresh_of libm cb t st with
                  | Some _ => N.succ (next_addr st)
                  | None => next_addr st
                  end.
Proof.
  intros Hstep. pose proof (step_cases t st) as Hcase. rewrite Hstep in Hcase.
  step_inversion Hcase;
    repeat match goal with H : fresh_of _ _ _ _ = _ |- _ => rewrite H end;
    reflexivity.
Qed.

Lemma step_keeps_slot t st t' st' effects :
  step libm cb t st = (t', st', effects) ->
  _bounds st' = None ->
  _bounds st = None /\ (before_baseline t -> before_baseline t').
Proof.
  intros Hstep. pose proof (step_cases t st) as Hcase. rewrite Hstep in Hcase.
  step_inversion Hcase; intros Hnull; try discriminate; try congruence;
    split; simpl; auto; try tauto.
Qed.

Lemma step_never_null t st t' st' effects :
  step libm cb t st = (t', st', effects) ->
  t <> NullDereference ->
  before_baseline t \/ _bounds st <> None ->
  t' <> NullDereference.
Proof.
  intros Hstep. pose proof (step_cases t st) as Hcase. rewrite Hstep in Hcase.
  step_inversion Hcase; intros Hnot Hearly;
    try discriminate; try apply check_distance_not_null; try tauto.
  destruct (report_finishes cb snapshot parent prev next) as [c Hc].
  rewrite Hc. discriminate.
Qed.

Lemma fresh_consistent : consistent (fresh_system LaneMarking).
Proof.
  split; simpl.
  - intros p [H|[t [[] _]]]. discriminate.
  - intros p q [H|[t [[] _]]]. discriminate.
  - constructor.
  - constructor.
Qed.

Lemma held_dispatch s snapshot p :
  held (exec libm cb s (Dispatch snapshot)) p -> held s p.
Proof.
  unfold held. simpl. intros [H|[t [Hin Hp]]]; [tauto|].
  apply in_app_or in Hin. destruct Hin as [Hin|[<-|[]]]; [eauto|destruct Hp].
Qed.

Lemma held_advance s i t t' st' effects p :
  nth_error (pool s) i = Some t ->
  step libm cb t (shared s) = (t', st', effects) ->
  held {| shared := st'; pool := replace_nth i t' (pool s);
          observed := observed s ++ effects |} p ->
  held s p \/ fresh_of libm cb t (shared s) = Some p.
Proof.
  intros Hnth Hstep. unfold held. cbn [shared pool].
  assert (Hin : In t (pool s)) by (eapply nth_error_In; eauto).
  intros [H|[t0 [Hin0 Hp]]].
  - destruct (step_within _ _ Hstep (or_introl H)) as [[Hw|Hw]|Hw]; eauto.
  - apply In_replace_nth in Hin0. destruct Hin0 as [->|Hin0]; [|eauto].
    destruct (step_within _ _ Hstep (or_intror Hp)) as [[Hw|Hw]|Hw]; eauto.
Qed.

Lemma exec_consistent s a : consistent s -> consistent (exec libm cb s a).
Proof.
  intros [Halloc Huniq Hearly Hnull]. destruct a as [snapshot|i].
  - split.
    + intros p Hp. apply held_dispatch in Hp. apply Halloc, Hp.
    + intros p q Hp Hq. apply held_dispatch in Hp, Hq. auto.
    + simpl. intros H. apply Forall_app. split; [auto|repeat constructor].
    + simpl. apply Forall_app. split; [auto|]. repeat constructor. discriminate.
  - cbn [exec]. destruct (nth_error (pool s) i) as [t|] eqn:Hnth; [|split; assumption].
    destruct (step libm cb t (shared s)) as [[t' st'] effects] eqn:Hstep.
    assert (Hin : In t (pool s)) by (eapply nth_error_In; eauto).
    pose proof (step_next_addr _ _ Hstep) as Hnext.
    split; cbn [shared pool].
    + intros p Hp. destruct (held_advance _ _ Hnth Hstep Hp) as [Hold|Hnew].
      * apply Halloc in Hold. destruct (fresh_of libm cb t (shared s)); lia.
      * rewrite Hnew in Hnext. apply fresh_of_addr in Hnew. lia.
    + intros p q Hp Hq Haddr.
      destruct (held_advance _ _ Hnth Hstep Hp) as [Hp'|Hp'];
        destruct (held_advance _ _ Hnth Hstep Hq) as [Hq'|Hq'].
      * auto.
      * apply Halloc in Hp'. apply fresh_of_addr in Hq'. lia.
      * apply Halloc in Hq'. apply fresh_of_addr in Hp'. lia.
      * congruence.
    + intros Hslot. destruct (step_keeps_slot _ _ Hstep Hslot) as [Hslot' Ht].
      specialize (Hearly Hslot'). apply Forall_replace_nth; [|exact Hearly].
      apply Ht. rewrite Forall_forall in Hearly. auto.
    + apply Forall_replace_nth; [|exact Hnull].
      rewrite Forall_forall in Hnull. eapply step_never_null; [exact Hstep|auto|].
      destruct (_bounds (shared s)) eqn:Hslot; [right; discriminate|left].
      specialize (Hearly eq_refl). rewrite Forall_forall in Hearly. auto.
Qed.

Lemma run_schedule_consistent schedule s :
  consistent s -> consistent (run_schedule libm cb schedule s).
Proof.
  revert s. induction schedule as [|a schedule IH]; intros s Hs; simpl; [exact Hs|].
  apply IH, exec_consistent, Hs.
Qed.

End InterleavingFacts.

(** ** Committed frames only grow *)

Section Monotone.

Variable libm : Libm.
Variable LaneMarking : Type.
Variable cb : LaneInvasionCallback LaneMarking.

(** Once a snapshot is committed the slot is never null again. *)
Lemma exec_keeps_committed s a :
  _bounds (shared s) <> None -> _bounds (shared (exec libm cb s a)) <> None.
Proof.
  intros Hslot. destruct a as [snapshot|i]; cbn [exec shared]; [exact Hslot|].
  destruct (nth_error (pool s) i) as [t|]; [|exact Hslot].
  destruct (step libm cb t (shared s)) as [[t' st'] effects] eqn:Hstep. cbn [shared].
  intros Hnull. eapply step_keeps_slot in Hnull; [|exact Hstep]. tauto.
Qed.

(** A step of a consistent system that changes a committed snapshot commits
    a newer frame. *)
Lemma exec_monotone s a p n :
  consistent s ->
  _bounds (shared s) = Some p ->
  _bounds (shared (exec libm cb s a)) = Some n ->
  n <> p ->
  (frame (pointee p) < frame (pointee n))%N.
Proof.
  intros Hs Hp. destruct a as [snapshot|i]; cbn [exec shared]; [congruence|].
  destruct (nth_error (pool s) i) as [t|] eqn:Hnth; [|congruence].
  assert (Hin : In t (pool s)) by (eapply nth_error_In; eauto).
  pose proof (step_cases libm cb t (shared s)) as Hcase.
  destruct (step libm cb t (shared s)) as [[t' st'] effects]. cbn [shared].
  inversion Hcase; subst; clear Hcase; cbn [_bounds kept]; try congruence.
  intros [= <-] Hne.
  match goal with
  | Hslot : _bounds (shared s) = Some ?c, Haddr : addr ?c = addr prev |- _ =>
      assert (c = prev)
        by (apply (held_unique Hs);
            [left; exact Hslot | right; eexists; split; [exact Hin|simpl; auto] | exact Haddr])
  end.
  congruence.
Qed.

End Monotone.

(** C1.  Committed frame numbers strictly increase.  Whatever way the steps
    of the ticks of one detector alternate, starting from a detector that has
    just been made, a step that replaces the committed snapshot [p] by another
    snapshot [n] has [frame p < frame n]; the same holds for a tick that runs
    alone from any store.  A tick whose world snapshot has a frame number
    less than or equal to the committed one returns normally, leaves the
    committed snapshot in place and has no effect outside the detector; and a
    tick in its commit loop whose [next] is not newer than its [prev]
    returns without touching the store. *)
Theorem committed_frames_increase
    (libm : Libm) (LaneMarking : Type) (cb : LaneInvasionCallback LaneMarking) :
  (forall schedule a p n,
      let s := run_schedule libm cb schedule (fresh_system LaneMarking) in
      _bounds (shared s) = Some p ->
      _bounds (shared (exec libm cb s a)) = Some n ->
      n <> p ->
      (frame (pointee p) < frame (pointee n))%N)
  /\ (forall snapshot st p n,
      _bounds st = Some p ->
      _bounds (snd (fst (Tick libm cb snapshot st))) = Some n ->
      n <> p ->
      (frame (pointee p) < frame (pointee n))%N)
  /\ (forall snapshot st p,
      _bounds st = Some p ->
      (WorldSnapshot.GetFrame snapshot <= frame (pointee p))%N ->
      exists st',
        Tick libm cb snapshot st = (Finished Returned, st', []) /\ _bounds st' = Some p)
  /\ (forall snapshot parent prev next st,
      (frame (pointee next) <= frame (pointee prev))%N ->
      step libm cb (AtCommit snapshot parent prev next) st = (Finished Returned, st, [])).
Proof.
  repeat split.
  - intros schedule a p n s. apply exec_monotone.
    apply run_schedule_consistent, fresh_consistent.
  - intros snapshot st p n Hp.
    destruct (WorldSnapshot.Find snapshot (_parent cb)) as [parent|] eqn:Hfind.
    + erewrite Tick_later by eassumption. cbv zeta.
      destruct (too_close _ _); [simpl; congruence|].
      destruct (N.leb_spec (frame (pointee (built libm cb snapshot parent st)))
                  (frame (pointee p))) as [Hle|Hlt]; [simpl; congruence|].
      simpl. intros [= <-] _. exact Hlt.
    + erewrite Tick_absent by eassumption. simpl. congruence.
  - intros snapshot st p Hp Hframe.
    destruct (WorldSnapshot.Find snapshot (_parent cb)) as [parent|] eqn:Hfind.
    + erewrite Tick_later by eassumption. cbv zeta.
      destruct (too_close _ _); [exists (kept st); auto|].
      destruct (N.leb_spec (frame (pointee (built libm cb snapshot parent st)))
                  (frame (pointee p))) as [Hle|Hlt]; [exists (kept st); auto|].
      exfalso. cbn [built pointee MakeBounds frame] in Hlt. lia.
    + erewrite Tick_absent by eassumption. eauto.
  - intros. apply step_commit_stale. assumption.
Qed.

Lemma committed_frames_increase_witness :
  (frame (pointee Example.snapshot_before) < frame (pointee Example.snapshot_after))%N
  /\ (exists st',
        Tick taylor_libm (Example.detector Example.quiet)
          (Example.world 1 Example.after_line) (Example.baseline 1 Example.before_line)
        = (Finished Returned, st', [])
        /\ _bounds st' = Some Example.snapshot_before)
  /\ step taylor_libm (Example.detector Example.quiet)
       (AtCommit (Example.world 1 Example.after_line) (Example.car_at Example.after_line)
          Example.snapshot_after Example.snapshot_before)
       fresh_store
     = (Finished Returned, fresh_store, []).
Proof.
  destruct (committed_frames_increase taylor_libm (Example.detector Example.quiet))
    as (Hinterleaved & Halone & Hstale & Hloop).
  split; [|split].
  - apply (Hinterleaved
             [Dispatch (Example.world 1 Example.before_line); Advance 0; Advance 0;
              Dispatch (Example.world 2 Example.after_line); Advance 1]
             (Advance 1)).
    + vm_compute. reflexivity.
    + vm_compute. reflexivity.
    + vm_compute. discriminate.
  - apply Hstale.
    + vm_compute. reflexivity.
    + vm_compute. discriminate.
  - apply Hloop. vm_compute. discriminate.
Defined.

(** ** The actor is missing *)

(** C8.  When the world snapshot does not contain the tracked actor, the
    tick returns normally at once: the store is the one it started from, and
    there is no query, no event and no log entry.  This holds for [Tick], for
    its first step among interleaved ticks, and for the registered handler. *)
Theorem absent_actor_is_skipped
    (libm : Libm) (LaneMarking : Type) (cb : LaneInvasionCallback LaneMarking)
    (snapshot : WorldSnapshot.t) (st : Store) :
  WorldSnapshot.Find snapshot (_parent cb) = None ->
  Tick libm cb snapshot st = (Finished Returned, st, [])
  /\ step libm cb (AtEntry snapshot) st = (Finished Returned, st, [])
  /\ handler libm cb snapshot st = (Finished Returned, st, []).
Proof.
  intros Hfind. split; [|split].
  - apply Tick_absent, Hfind.
  - apply step_entry_absent, Hfind.
  - unfold handler. erewrite Tick_absent by exact Hfind. reflexivity.
Qed.

Lemma absent_actor_is_skipped_witness :
  let st := Example.baseline 1 Example.before_line in
  Tick taylor_libm (Example.detector Example.failing) (Example.empty_world 2) st
  = (Finished Returned, st, [])
  /\ step taylor_libm (Example.detector Example.failing) (AtEntry (Example.empty_world 2)) st
     = (Finished Returned, st, [])
  /\ handler taylor_libm (Example.detector Example.failing) (Example.empty_world 2) st
     = (Finished Returned, st, []).
Proof.
  apply (@absent_actor_is_skipped taylor_libm Example.Marking
           (Example.detector Example.failing) (Example.empty_world 2)).
  reflexivity.
Defined.

(** ** The first tick *)

(** C4.  On a detector whose slot is still null, a tick that finds the actor
    installs the snapshot it built and returns with no effect, wherever the
    actor is.  Among interleaved ticks, the baseline exchange that finds the
    slot null installs [next] and ends the tick with no effect; the one that
    finds a snapshot [current] there, installed by another tick, does not
    return: it goes on to the distance check with [current] as [prev]. *)
Theorem first_tick_sets_baseline
    (libm : Libm) (LaneMarking : Type) (cb : LaneInvasionCallback LaneMarking) :
  (forall snapshot parent st,
      WorldSnapshot.Find snapshot (_parent cb) = Some parent ->
      _bounds st = None ->
      Tick libm cb snapshot st
      = (Finished Returned,
         {| _bounds := Some (built libm cb snapshot parent st);
            next_addr := N.succ (next_addr st) |}, []))
  /\ (forall snapshot parent next st,
      _bounds st = None ->
      step libm cb (AtBaseline snapshot parent next) st
      = (Finished Returned, {| _bounds := Some next; next_addr := next_addr st |}, []))
  /\ (forall snapshot parent next current st,
      _bounds st = Some current ->
      step libm cb (AtBaseline snapshot parent next) st
      = (if too_close (pointee current) (pointee next)
         then Finished Returned
         else AtCommit snapshot parent current next, st, [])).
Proof.
  split; [|split].
  - intros snapshot parent st Hfind Hslot. apply Tick_first; assumption.
  - intros snapshot parent next st Hslot. apply step_baseline_empty, Hslot.
  - intros snapshot parent next current st Hslot.
    erewrite step_baseline_taken by exact Hslot. reflexivity.
Qed.

Lemma first_tick_sets_baseline_witness :
  Tick taylor_libm (Example.detector Example.failing)
    (Example.world 1 Example.before_line) fresh_store
  = (Finished Returned, {| _bounds := Some Example.snapshot_before; next_addr := 1 |}, [])
  /\ step taylor_libm (Example.detector Example.failing)
       (AtBaseline (Example.world 2 Example.after_line) (Example.car_at Example.after_line)
          Example.snapshot_after)
       {| _bounds := None; next_addr := 2 |}
     = (Finished Returned, {| _bounds := Some Example.snapshot_after; next_addr := 2 |}, [])
  /\ step taylor_libm (Example.detector Example.failing)
       (AtBaseline (Example.world 2 Example.after_line) (Example.car_at Example.after_line)
          Example.snapshot_after)
       {| _bounds := Some Example.snapshot_before; next_addr := 2 |}
     = (AtCommit (Example.world 2 Example.after_line) (Example.car_at Example.after_line)
          Example.snapshot_before Example.snapshot_after,
        {| _bounds := Some Example.snapshot_before; next_addr := 2 |}, []).
Proof.
  destruct (first_tick_sets_baseline taylor_libm (Example.detector Example.failing))
    as (Halone & Hnull & Htaken).
  split; [|split].
  - apply (Halone (Example.world 1 Example.before_line) (Example.car_at Example.before_line));
      reflexivity.
  - apply Hnull. reflexivity.
  - rewrite (Htaken _ _ _ Example.snapshot_before) by reflexivity. vm_compute. reflexivity.
Defined.

(** Two first ticks that race: both read a null slot, the tick of frame 1
    installs the baseline, and the tick of frame 2, whose exchange fails,
    goes on, commits its snapshot and reports the line crossed in between. *)
Example racing_first_ticks :
  let s := run_schedule taylor_libm (Example.detector Example.quiet)
             [Dispatch (Example.world 1 Example.before_line);
              Dispatch (Example.world 2 Example.after_line);
              Advance 0; Advance 1; Advance 0; Advance 1; Advance 1]
             (fresh_system Example.Marking) in
  pool s = [Finished Returned; Finished Returned]
  /\ option_map (fun p => frame (pointee p)) (_bounds (shared s)) = Some 2%N
  /\ map (fun e => match e with
                   | Delivered event => event_crossed_lane_markings event
                   | _ => []
                   end) (observed s)
     = [[]; []; []; []; ["Solid"%string]].
Proof. vm_compute. repeat split. Qed.

(** ** The distance check *)

Lemma indices4_complete (i : index4) : In i indices4.
Proof. destruct i; simpl; auto. Qed.

Lemma too_close_spec (prev next : Bounds) :
  too_close prev next = true
  <-> exists i, (displacement prev next i <? distance_threshold)%f32 = true.
Proof.
  unfold too_close. rewrite existsb_exists. split.
  - intros [i [_ Hi]]. eauto.
  - intros [i Hi]. exists i. split; [apply indices4_complete|exact Hi].
Qed.

Lemma too_close_false (prev next : Bounds) :
  too_close prev next = false
  <-> forall i, (displacement prev next i <? distance_threshold)%f32 = false.
Proof.
  split.
  - intros Hfar i.
    destruct (displacement prev next i <? distance_threshold)%f32 eqn:Hi; [|reflexivity].
    assert (too_close prev next = true) by (apply too_close_spec; eauto). congruence.
  - intros Hall. destruct (too_close prev next) eqn:Hclose; [|reflexivity].
    apply too_close_spec in Hclose. destruct Hclose as [i Hi]. rewrite Hall in Hi.
    discriminate.
Qed.

(** C2, as stated, fails.  The car creeps from 63 m to the next binary32
    number.  Its two front corners, near 65.5 m, are rounded back to where
    they were, while its two rear corners, near 60.5 m, move by [2^-18] m,
    which is above the threshold [10 * 2^-23].  So not every displacement is
    below the threshold, yet the tick is a no-op: it leaves the distance check
    by [return] at the first corner. *)
Lemma one_still_corner_stops_the_tick :
  let st := Example.baseline 1 Example.at_63 in
  let snapshot := Example.world 2 Example.past_63 in
  let prev := MakeBounds taylor_libm Example.box 1 Example.at_63 in
  let next := MakeBounds taylor_libm Example.box 2 Example.past_63 in
  _bounds st = Some {| addr := 0; pointee := prev |}
  /\ (distance_threshold <=? displacement prev next I1)%f32 = true
  /\ ~ (Tick taylor_libm (Example.detector Example.quiet) snapshot st
        = (Finished Returned, kept st, [])
        <-> forall i, (displacement prev next i <? distance_threshold)%f32 = true).
Proof.
  cbv zeta. split; [|split].
  - vm_compute. reflexivity.
  - vm_compute. reflexivity.
  - intros [Hall _].
    assert (Hnoop : Tick taylor_libm (Example.detector Example.quiet)
                      (Example.world 2 Example.past_63) (Example.baseline 1 Example.at_63)
                    = (Finished Returned, kept (Example.baseline 1 Example.at_63), []))
      by (vm_compute; reflexivity).
    assert (Hmoved : (displacement (MakeBounds taylor_libm Example.box 1 Example.at_63)
                        (MakeBounds taylor_libm Example.box 2 Example.past_63) I1
                      <? distance_threshold)%f32 = false)
      by (vm_compute; reflexivity).
    pose proof (eq_trans (eq_sym (Hall Hnoop I1)) Hmoved) as Hbad.
    discriminate Hbad.
Qed.

(** C2, amended.  With a committed snapshot [prev] and the snapshot [next]
    the tick built, the distance check ends the tick (no commit, no query, no
    event) exactly when the displacement of at least one of the four corners
    compares below the threshold; when none does, the tick goes on to the
    staleness check and the commit. *)
Theorem some_still_corner_stops_the_tick
    (libm : Libm) (LaneMarking : Type) (cb : LaneInvasionCallback LaneMarking)
    (snapshot : WorldSnapshot.t) (parent : ActorSnapshot.t) (prev : BoundsPtr) (st : Store) :
  WorldSnapshot.Find snapshot (_parent cb) = Some parent ->
  _bounds st = Some prev ->
  let next := built libm cb snapshot parent st in
  let below i := (displacement (pointee prev) (pointee next) i <? distance_threshold)%f32 in
  (too_close (pointee prev) (pointee next) = true <-> exists i, below i = true)
  /\ ((exists i, below i = true) ->
      Tick libm cb snapshot st = (Finished Returned, kept st, [])
      /\ step libm cb (AtEntry snapshot) st = (Finished Returned, kept st, []))
  /\ ((forall i, below i = false) ->
      step libm cb (AtEntry snapshot) st = (AtCommit snapshot parent prev next, kept st, [])
      /\ Tick libm cb snapshot st
         = if (frame (pointee next) <=? frame (pointee prev))%N
           then (Finished Returned, kept st, [])
           else (fst (report cb snapshot parent prev next), committed next st,
                 snd (report cb snapshot parent prev next))).
Proof.
  intros Hfind Hslot next below. split; [apply too_close_spec|]. split.
  - intros Hsome. apply too_close_spec in Hsome. fold next in Hsome.
    erewrite Tick_later, step_entry_later by eassumption. cbv zeta. unfold check_distance.
    fold next. rewrite Hsome. split; reflexivity.
  - intros Hnone. apply too_close_false in Hnone. fold next in Hnone.
    erewrite Tick_later, step_entry_later by eassumption. cbv zeta. unfold check_distance.
    fold next. rewrite Hnone. split; reflexivity.
Qed.

Lemma some_still_corner_stops_the_tick_witness :
  (let st := Example.baseline 1 Example.at_63 in
   let snapshot := Example.world 2 Example.past_63 in
   Tick taylor_libm (Example.detector Example.quiet) snapshot st
   = (Finished Returned, kept st, [])
   /\ step taylor_libm (Example.detector Example.quiet) (AtEntry snapshot) st
      = (Finished Returned, kept st, []))
  /\ step taylor_libm (Example.detector Example.quiet)
       (AtEntry (Example.world 2 Example.after_line)) (Example.baseline 1 Example.before_line)
     = (AtCommit (Example.world 2 Example.after_line) (Example.car_at Example.after_line)
          Example.snapshot_before
          (built taylor_libm (Example.detector Example.quiet)
             (Example.world 2 Example.after_line) (Example.car_at Example.after_line)
             (Example.baseline 1 Example.before_line)),
        kept (Example.baseline 1 Example.before_line), []).
Proof.
  split.
  - assert (Hslot : _bounds (Example.baseline 1 Example.at_63)
                    = Some {| addr := 0;
                              pointee := MakeBounds taylor_libm Example.box 1 Example.at_63 |})
      by (vm_compute; reflexivity).
    destruct (@some_still_corner_stops_the_tick taylor_libm Example.Marking
                (Example.detector Example.quiet) (Example.world 2 Example.past_63)
                (Example.car_at Example.past_63) _ (Example.baseline 1 Example.at_63)
                eq_refl Hslot) as (_ & Hstop & _).
    apply Hstop. exists I0. vm_compute. reflexivity.
  - assert (Hslot : _bounds (Example.baseline 1 Example.before_line)
                    = Some Example.snapshot_before)
      by (vm_compute; reflexivity).
    destruct (@some_still_corner_stops_the_tick taylor_libm Example.Marking
                (Example.detector Example.quiet) (Example.world 2 Example.after_line)
                (Example.car_at Example.after_line) _
                (Example.baseline 1 Example.before_line)
                eq_refl Hslot) as (_ & _ & Hgo).
    apply Hgo. intros i. destruct i; vm_compute; reflexivity.
Defined.

(** The example above does not depend on the stand-in C library: at the
    heading zero every library that is exact at zero builds the same
    footprint. *)
Lemma Rotate_heading_zero (libm : Libm) (v : Location) :
  exact_at_zero libm -> Rotate libm F32.zero v = Rotate taylor_libm F32.zero v.
Proof.
  intros [Hcos Hsin]. unfold Rotate.
  change (F32.zero * (Math.Pi / F32.of_Z 180))%f32 with F32.zero.
  rewrite Hcos, Hsin. reflexivity.
Qed.

Lemma MakeBounds_heading_zero (libm : Libm) (box : BoundingBox) (n : N) (px py : F32.float) :
  exact_at_zero libm ->
  MakeBounds libm box n (Example.at_position px py)
  = MakeBounds taylor_libm box n (Example.at_position px py).
Proof.
  intros Hlibm. unfold MakeBounds. cbn [Example.at_position rotation yaw location].
  rewrite !(Rotate_heading_zero _ Hlibm). reflexivity.
Qed.

Lemma one_still_corner_any_libm (libm : Libm) :
  exact_at_zero libm ->
  let st := Example.baseline 1 Example.at_63 in
  Tick libm (Example.detector Example.quiet) (Example.world 2 Example.past_63) st
  = (Finished Returned, kept st, []).
Proof.
  intros Hlibm st.
  assert (Hslot : _bounds st
                  = Some {| addr := 0;
                            pointee := MakeBounds taylor_libm Example.box 1 Example.at_63 |})
    by (vm_compute; reflexivity).
  erewrite Tick_later with (parent := Example.car_at Example.past_63);
    [|reflexivity|exact Hslot].
  cbv zeta. unfold built.
  cbn [Example.detector _parent_bounding_box Example.car_at ActorSnapshot.transform pointee].
  unfold Example.past_63. rewrite (MakeBounds_heading_zero _ _ _ _ Hlibm).
  replace (too_close _ _) with true by (vm_compute; reflexivity). reflexivity.
Qed.

(** ** After the commit *)

Lemma crossed_lanes_unfold (LaneMarking : Type) (cb : LaneInvasionCallback LaneMarking)
    (prev next : Bounds) :
  crossed_lanes cb prev next
  = CalculateCrossedLanes cb (get4 (corners prev) I0) (get4 (corners next) I0)
    ++ CalculateCrossedLanes cb (get4 (corners prev) I1) (get4 (corners next) I1)
    ++ CalculateCrossedLanes cb (get4 (corners prev) I2) (get4 (corners next) I2)
    ++ CalculateCrossedLanes cb (get4 (corners prev) I3) (get4 (corners next) I3).
Proof. unfold crossed_lanes. simpl. rewrite app_nil_r. reflexivity. Qed.

Section AfterCommit.

Variable libm : Libm.
Variable LaneMarking : Type.
Variable cb : LaneInvasionCallback LaneMarking.

(** Only the step that commits has an effect outside the detector, and its
    effects are those of [report]. *)
Lemma step_effects t st t' st' effects :
  step libm cb t st = (t', st', effects) ->
  effects <> [] ->
  exists snapshot parent prev next,
    t = AtCommit snapshot parent prev next
    /\ _bounds st' = Some next
    /\ (frame (pointee prev) < frame (pointee next))%N
    /\ (t', effects) = report cb snapshot parent prev next.
Proof.
  intros Hstep. pose proof (step_cases libm cb t st) as Hcase. rewrite Hstep in Hcase.
  inversion Hcase; subst; clear Hcase; try congruence.
  intros _. exists snapshot, parent, prev, next. repeat split; auto.
  destruct (report cb snapshot parent prev next); reflexivity.
Qed.

Lemma report_unfold snapshot parent prev next :
  let lanes := crossed_lanes cb (pointee prev) (pointee next) in
  let event :=
    {| event_frame := Timestamp.frame (WorldSnapshot.GetTimestamp snapshot);
       event_timestamp := Timestamp.elapsed_seconds (WorldSnapshot.GetTimestamp snapshot);
       event_transform := ActorSnapshot.transform parent;
       event_parent := _parent cb;
       event_crossed_lane_markings := lanes |} in
  report cb snapshot parent prev next
  = match lanes with
    | [] => (Finished Returned, crossing_queries (pointee prev) (pointee next))
    | _ :: _ => (Finished (_callback cb event),
                 crossing_queries (pointee prev) (pointee next) ++ [Delivered event])
    end.
Proof. cbv zeta. unfold report. destruct (crossed_lanes _ _ _); reflexivity. Qed.

End AfterCommit.

(** C3.  A tick that runs alone on a committed snapshot [prev] either
    commits [next], in which case it asks the map once for each corner, in
    the order of the corners, with the positions of that corner in [prev] and
    in [next], and then calls the subscriber exactly when the four answers,
    appended in that order, are not all empty, with an event made of the
    frame and the elapsed seconds of the world snapshot, the transform of the
    actor, the actor's identifier and the appended answers; or it does not
    commit, and then asks nothing and delivers nothing.  A tick that installs
    the baseline or misses the actor asks and delivers nothing either.
    Among interleaved ticks, a step with an effect outside the detector is
    one that has just committed.  In particular, [M] reported for the third
    corner alone gives an event with the list [[M]], and four empty answers
    give no event although [next] was committed. *)
Theorem crossings_reported_after_commit
    (libm : Libm) (LaneMarking : Type) (cb : LaneInvasionCallback LaneMarking) :
  (forall snapshot parent prev st,
      WorldSnapshot.Find snapshot (_parent cb) = Some parent ->
      _bounds st = Some prev ->
      let next := built libm cb snapshot parent st in
      let from i := get4 (corners (pointee prev)) i in
      let to i := get4 (corners (pointee next)) i in
      let lanes := CalculateCrossedLanes cb (from I0) (to I0)
                   ++ CalculateCrossedLanes cb (from I1) (to I1)
                   ++ CalculateCrossedLanes cb (from I2) (to I2)
                   ++ CalculateCrossedLanes cb (from I3) (to I3) in
      let queries := [Queried (from I0) (to I0); Queried (from I1) (to I1);
                      Queried (from I2) (to I2); Queried (from I3) (to I3)] in
      let event :=
        {| event_frame := Timestamp.frame (WorldSnapshot.GetTimestamp snapshot);
           event_timestamp := Timestamp.elapsed_seconds (WorldSnapshot.GetTimestamp snapshot);
           event_transform := ActorSnapshot.transform parent;
           event_parent := _parent cb;
           event_crossed_lane_markings := lanes |} in
      Tick libm cb snapshot st
      = if negb (too_close (pointee prev) (pointee next))
           && (frame (pointee prev) <? frame (pointee next))%N
        then match lanes with
             | [] => (Finished Returned, committed next st, queries)
             | _ :: _ => (Finished (_callback cb event), committed next st,
                          queries ++ [Delivered event])
             end
        else (Finished Returned, kept st, []))
  /\ (forall snapshot st,
      _bounds st = None \/ WorldSnapshot.Find snapshot (_parent cb) = None ->
      snd (Tick libm cb snapshot st) = [])
  /\ (forall t st,
      snd (step libm cb t st) <> [] ->
      exists snapshot parent prev next,
        t = AtCommit snapshot parent prev next
        /\ _bounds (snd (fst (step libm cb t st))) = Some next
        /\ (fst (fst (step libm cb t st)), snd (step libm cb t st))
           = report cb snapshot parent prev next)
  /\ (forall snapshot parent prev next M,
      let from i := get4 (corners (pointee prev)) i in
      let to i := get4 (corners (pointee next)) i in
      CalculateCrossedLanes cb (from I0) (to I0) = [] ->
      CalculateCrossedLanes cb (from I1) (to I1) = [] ->
      CalculateCrossedLanes cb (from I2) (to I2) = [M] ->
      CalculateCrossedLanes cb (from I3) (to I3) = [] ->
      exists event,
        snd (report cb snapshot parent prev next)
        = [Queried (from I0) (to I0); Queried (from I1) (to I1);
           Queried (from I2) (to I2); Queried (from I3) (to I3); Delivered event]
        /\ event_crossed_lane_markings event = [M])
  /\ (forall snapshot parent prev next,
      let from i := get4 (corners (pointee prev)) i in
      let to i := get4 (corners (pointee next)) i in
      CalculateCrossedLanes cb (from I0) (to I0) = [] ->
      CalculateCrossedLanes cb (from I1) (to I1) = [] ->
      CalculateCrossedLanes cb (from I2) (to I2) = [] ->
      CalculateCrossedLanes cb (from I3) (to I3) = [] ->
      report cb snapshot parent prev next
      = (Finished Returned,
         [Queried (from I0) (to I0); Queried (from I1) (to I1);
          Queried (from I2) (to I2); Queried (from I3) (to I3)])).
Proof.
  split; [|split; [|split; [|split]]].
  - intros snapshot parent prev st Hfind Hslot. cbv zeta.
    erewrite Tick_later by eassumption. cbv zeta.
    destruct (too_close _ _); [reflexivity|]. cbn [negb andb].
    rewrite N.leb_antisym.
    destruct (frame (pointee prev) <? frame (pointee (built libm cb snapshot parent st)))%N;
      cbn [negb]; [|reflexivity].
    rewrite report_unfold. cbv zeta. rewrite crossed_lanes_unfold.
    match goal with |- context [match ?l with [] => _ | _ :: _ => _ end] => destruct l end;
      reflexivity.
  - intros snapshot st [Hslot|Hfind].
    + destruct (WorldSnapshot.Find snapshot (_parent cb)) as [parent|] eqn:Hfind.
      * erewrite Tick_first by eassumption. reflexivity.
      * erewrite Tick_absent by eassumption. reflexivity.
    + erewrite Tick_absent by eassumption. reflexivity.
  - intros t st Heffects.
    destruct (step libm cb t st) as [[t' st'] effects] eqn:Hstep. cbn [fst snd] in *.
    destruct (step_effects libm cb t st Hstep Heffects)
      as (snapshot & parent & prev & next & Ht & Hslot & _ & Hreport).
    exists snapshot, parent, prev, next. auto.
  - intros snapshot parent prev next M from to H0 H1 H2 H3.
    rewrite report_unfold. cbv zeta. rewrite crossed_lanes_unfold.
    fold (from I0) (from I1) (from I2) (from I3) (to I0) (to I1) (to I2) (to I3).
    rewrite H0, H1, H2, H3. cbn [app snd]. eexists. split; reflexivity.
  - intros snapshot parent prev next from to H0 H1 H2 H3.
    rewrite report_unfold. cbv zeta. rewrite crossed_lanes_unfold.
    fold (from I0) (from I1) (from I2) (from I3) (to I0) (to I1) (to I2) (to I3).
    rewrite H0, H1, H2, H3. reflexivity.
Qed.

Lemma crossings_reported_after_commit_witness :
  Tick taylor_libm (Example.detector Example.quiet) (Example.world 2 Example.after_line)
    (Example.baseline 1 Example.before_line)
  = (Finished Returned, {| _bounds := Some Example.snapshot_after; next_addr := 2 |},
     crossing_queries (pointee Example.snapshot_before) (pointee Example.snapshot_after)
     ++ [Delivered Example.solid_event])
  /\ snd (Tick taylor_libm (Example.detector Example.quiet)
            (Example.world 1 Example.before_line) fresh_store) = []
  /\ (exists snapshot parent prev next,
        AtCommit (Example.world 2 Example.after_line) (Example.car_at Example.after_line)
          Example.snapshot_before Example.snapshot_after
        = AtCommit snapshot parent prev next
        /\ next = Example.snapshot_after)
  /\ (exists event,
        snd (report (Example.detector Example.quiet) (Example.world 2 Example.after_line)
               (Example.car_at Example.after_line)
               Example.snapshot_before Example.snapshot_after)
        = crossing_queries (pointee Example.snapshot_before) (pointee Example.snapshot_after)
          ++ [Delivered event]
        /\ event_crossed_lane_markings event = ["Solid"%string])
  /\ report (Example.detector Example.quiet) (Example.world 2 Example.beside_line)
       (Example.car_at Example.beside_line) Example.snapshot_before Example.snapshot_beside
     = (Finished Returned,
        crossing_queries (pointee Example.snapshot_before) (pointee Example.snapshot_beside)).
Proof.
  destruct (crossings_reported_after_commit taylor_libm (Example.detector Example.quiet))
    as (Halone & Hquiet & Hstep & Hthird & Hnone).
  split; [|split; [|split; [|split]]].
  - rewrite (Halone (Example.world 2 Example.after_line)
               (Example.car_at Example.after_line) Example.snapshot_before
               (Example.baseline 1 Example.before_line) eq_refl eq_refl).
    vm_compute. reflexivity.
  - apply Hquiet. left. reflexivity.
  - destruct (Hstep (AtCommit (Example.world 2 Example.after_line)
                       (Example.car_at Example.after_line)
                       Example.snapshot_before Example.snapshot_after)
                Example.store_before)
      as (snapshot & parent & prev & next & Ht & Hslot & _).
    + vm_compute. discriminate.
    + exists snapshot, parent, prev, next. split; [exact Ht|].
      vm_compute in Hslot. injection Hslot as <-. reflexivity.
  - apply (Hthird (Example.world 2 Example.after_line) (Example.car_at Example.after_line)
             Example.snapshot_before Example.snapshot_after "Solid"%string);
      vm_compute; reflexivity.
  - apply (Hnone (Example.world 2 Example.beside_line) (Example.car_at Example.beside_line)
             Example.snapshot_before Example.snapshot_beside);
      vm_compute; reflexivity.
Defined.

(** ** The footprint *)

(** In binary32, as in every IEEE-754 format, subtracting is adding the
    opposite, and the opposite of a factor is the opposite of the product. *)
Lemma sub_add_opp (a b : F32.float) : (a - b)%f32 = (a + - b)%f32.
Proof.
  unfold F32.sub, F32.add, F32.opp.
  destruct a as [sa|sa| |sa ma ea], b as [sb|sb| |sb mb eb]; try reflexivity;
    destruct sa, sb; reflexivity.
Qed.

Lemma binary_round_aux_opp (s : bool) (m e : Z) (l : SpecFloat.location) :
  SFopp (binary_round_aux F32.prec F32.emax s m e l)
  = binary_round_aux F32.prec F32.emax (negb s) m e l.
Proof.
  unfold binary_round_aux.
  destruct (shr_fexp F32.prec F32.emax m e l) as [mrs' e'].
  destruct (shr_fexp F32.prec F32.emax _ e' loc_Exact) as [mrs'' e''].
  destruct (shr_m mrs''); try reflexivity.
  destruct (e'' <=? F32.emax - F32.prec)%Z; reflexivity.
Qed.

Lemma mul_opp_l (a b : F32.float) : (- a * b)%f32 = (- (a * b))%f32.
Proof.
  unfold F32.mul, F32.opp.
  destruct a as [sa|sa| |sa ma ea], b as [sb|sb| |sb mb eb]; try reflexivity;
    try (destruct sa, sb; reflexivity).
  cbn [SFmul SFopp]. rewrite binary_round_aux_opp.
  destruct sa, sb; reflexivity.
Qed.

(** C5.  [MakeBounds] is the builder of the specification: the centre is the
    location of the transform plus the centre of the box, and the corners are
    the centre plus the rotated offsets [(+-extent.x, +-extent.y, 0)], always
    in the order +x+y, -x+y, +x-y, -x-y.  [Rotate] is the rotation of the
    specification: the yaw is turned from degrees into radians, the matrix
    [[cos, -sin], [sin, cos]] is applied to the first two components, and the
    third component is returned as it is. *)
Theorem footprint_matches_contract (libm : Libm) :
  (forall box frame transform,
      MakeBounds libm box frame transform = build_contract libm frame transform box)
  /\ (forall box frame transform,
      let center := (location transform + box_location box)%loc in
      let turned dx dy := Rotate libm (yaw (rotation transform)) (MkVector3D dx dy F32.zero) in
      let ex := x (extent box) in
      let ey := y (extent box) in
      MakeBounds libm box frame transform
      = {| frame := frame;
           corners := Array4 (center + turned ex ey)%loc
                             (center + turned (- ex)%f32 ey)%loc
                             (center + turned ex (- ey)%f32)%loc
                             (center + turned (- ex)%f32 (- ey)%f32)%loc |})
  /\ (forall yaw offset, Rotate libm yaw offset = rotate_contract libm yaw offset)
  /\ (forall yaw offset, z (Rotate libm yaw offset) = z offset).
Proof.
  assert (Hrotate : forall yaw offset, Rotate libm yaw offset = rotate_contract libm yaw offset).
  { intros yaw offset. unfold Rotate, rotate_contract, rotation_matrix, degrees_to_radians.
    cbn [m11 m12 m21 m22]. rewrite sub_add_opp, mul_opp_l. reflexivity. }
  split; [|split; [|split]].
  - intros box frame transform. unfold MakeBounds, build_contract, map4, corner_signs.
    cbn [elt0 elt1 elt2 elt3 fst snd signed]. rewrite <- !Hrotate. reflexivity.
  - intros box frame transform. reflexivity.
  - exact Hrotate.
  - intros yaw offset. reflexivity.
Qed.

(** ** Exceptions of the subscriber *)

Section Subscriber.

Variable libm : Libm.
Variable LaneMarking : Type.
Variable cb : LaneInvasionCallback LaneMarking.

(** The way a tick ends is the only thing that depends on the subscriber. *)
Lemma Tick_with_callback callback snapshot st :
  snd (fst (Tick libm (with_callback cb callback) snapshot st))
  = snd (fst (Tick libm cb snapshot st))
  /\ snd (Tick libm (with_callback cb callback) snapshot st) = snd (Tick libm cb snapshot st).
Proof.
  destruct (WorldSnapshot.Find snapshot (_parent cb)) as [parent|] eqn:Hfind.
  - destruct (_bounds st) as [prev|] eqn:Hslot.
    + erewrite !Tick_later by eassumption. cbv zeta.
      change (built libm (with_callback cb callback)) with (built libm cb).
      destruct (too_close _ _); [split; reflexivity|].
      destruct (_ <=? _)%N; [split; reflexivity|].
      rewrite !report_unfold. cbv zeta.
      change (crossed_lanes (with_callback cb callback)) with (crossed_lanes cb).
      destruct (crossed_lanes cb _ _); split; reflexivity.
    + erewrite !Tick_first by eassumption. split; reflexivity.
  - erewrite !Tick_absent by eassumption. split; reflexivity.
Qed.


Lemma handler_store snapshot st :
  snd (fst (handler libm cb snapshot st)) = snd (fst (Tick libm cb snapshot st)).
Proof.
  unfold handler. destruct (Tick libm cb snapshot st) as [[t st'] effects].
  destruct t as [| | |[|[what|]]|]; reflexivity.
Qed.




End Subscriber.

Section Containment.

Variable libm : Libm.
Variable LaneMarking : Type.
Variable cb : LaneInvasionCallback LaneMarking.




End Containment.




(** With the failing subscriber the car crosses the line at frame 2 and
    crosses it back at frame 3: both events are delivered and both
    exceptions logged. *)
Example failing_subscriber_run :
  map (@is_log Example.Marking)
    (snd (handle_all taylor_libm (Example.detector Example.failing)
            [Example.world 1 Example.before_line;
             Example.world 2 Example.after_line;
             Example.world 3 Example.before_line] fresh_store))
  = [false; false; false; false; false; true; false; false; false; false; false; true].
Proof. vm_compute. reflexivity. Qed.

(** ** The examples and the C library *)

Section HeadingZero.

Variable libm : Libm.
Hypothesis libm_exact : exact_at_zero libm.
Variable callback : LaneInvasionEvent Example.Marking -> completion.





End HeadingZero.



(** ** The distance check is not repeated *)



(** ** Registrations of the sensor *)

Lemma filter_map_fst {A : Type} (p : N -> bool) (l : list (N * A)) :
  map fst (filter (fun entry => p (fst entry)) l) = filter p (map fst l).
Proof.
  induction l as [|[id a] l IH]; [reflexivity|]. cbn [filter map fst].
  destruct (p id); cbn [map fst]; rewrite IH; reflexivity.
Qed.

Lemma filter_absent (id : N) (l : list N) :
  ~ In id l -> filter (fun other => negb (other =? id)%N) l = l.
Proof.
  induction l as [|a l IH]; [reflexivity|]. cbn [filter In]. intros Hnot.
  destruct (N.eqb_spec a id) as [->|Hne]; [tauto|]. cbn [negb]. rewrite IH; tauto.
Qed.

Lemma filter_outside (others : list N) (l : list N) :
  (forall id, In id l -> ~ In id others) ->
  filter (fun id => negb (existsb (N.eqb id) others)) l = l.
Proof.
  induction l as [|a l IH]; [reflexivity|]. cbn [filter]. intros Hout.
  destruct (existsb (N.eqb a) others) eqn:Hin.
  - apply existsb_exists in Hin. destruct Hin as (b & Hb & Heq).
    apply N.eqb_eq in Heq. subst b. exfalso. apply (Hout a); simpl; auto.
  - cbn [negb]. rewrite IH; [reflexivity|]. intros id Hid. apply Hout. simpl; auto.
Qed.

Lemma filter_inside (others : list N) :
  filter (fun id => negb (existsb (N.eqb id) others)) others = [].
Proof.
  assert (H : forall l, incl l others ->
                        filter (fun id => negb (existsb (N.eqb id) others)) l = []).
  { induction l as [|a l IH]; [reflexivity|]. intros Hincl. cbn [filter].
    assert (Hin : existsb (N.eqb a) others = true).
    { apply existsb_exists. exists a. split; [apply Hincl; simpl; auto|apply N.eqb_refl]. }
    rewrite Hin. cbn [negb]. apply IH. intros b Hb. apply Hincl. simpl; auto. }
  apply H, incl_refl.
Qed.

Section SensorFacts.

Variable LaneMarking : Type.

Lemma registered_remove id (e : Episode LaneMarking) :
  registered (remove id e) = filter (fun other => negb (other =? id)%N) (registered e).
Proof.
  unfold registered, remove. cbn [on_tick].
  apply (filter_map_fst (fun other => negb (other =? id)%N)).
Qed.

Lemma registered_register cb (e : Episode LaneMarking) :
  registered (snd (register cb e)) = registered e ++ [N.succ (last_id e)].
Proof. unfold registered, register. cbn [snd on_tick]. rewrite map_app. reflexivity. Qed.

Lemma own_absent others id :
  NoDup (others ++ own id) -> ~ In id others \/ id = 0%N.
Proof.
  unfold own. destruct (N.eqb_spec id 0) as [->|Hne]; [auto|]. intros Hnodup. left.
  intros Hin. apply NoDup_remove_2 in Hnodup. rewrite app_nil_r in Hnodup. tauto.
Qed.

Lemma tidy_live others (w : World LaneMarking) : tidy others w -> live others w = own (_callback_id w).
Proof.
  intros [Hreg Hdistinct _]. unfold live. rewrite Hreg in *. rewrite filter_app.
  rewrite filter_inside. cbn [app]. apply filter_outside.
  intros id Hid. unfold own in *. destruct (N.eqb_spec (_callback_id w) 0); [destruct Hid|].
  destruct Hid as [<-|[]]. apply NoDup_remove_2 in Hdistinct.
  rewrite app_nil_r in Hdistinct. exact Hdistinct.
Qed.

Lemma Stop_tidy others (w : World LaneMarking) :
  tidy others w -> lockable w = true -> tidy others (fst (Stop w)).
Proof.
  intros [Hreg Hdistinct Hrange] Hlock. unfold Stop. rewrite Hlock, andb_true_r.
  pose proof (own_absent _ _ (eq_ind _ (@NoDup N) Hdistinct _ Hreg)) as Habsent.
  unfold own in *. destruct (N.eqb_spec (_callback_id w) 0) as [Hzero|Hne]; cbn [negb fst].
  - split; cbn [with_callback_id episode _callback_id]; auto.
  - destruct Habsent as [Habsent|Habsent]; [|contradiction].
    split; cbn [with_callback_id episode _callback_id].
    + rewrite registered_remove, Hreg, filter_app, (@filter_absent _ _ Habsent).
      cbn [filter]. rewrite N.eqb_refl. reflexivity.
    + rewrite registered_remove. apply NoDup_filter, Hdistinct.
    + rewrite registered_remove. cbn [remove last_id].
      apply Forall_forall. intros id Hid. apply filter_In in Hid.
      rewrite Forall_forall in Hrange. apply Hrange, Hid.
Qed.

Lemma Listen_tidy others callback (w : World LaneMarking) :
  tidy others w -> lockable w = true -> tidy others (snd (fst (Listen callback w))).
Proof.
  intros Htidy Hlock. unfold Listen.
  destruct (as_vehicle (GetParent w)) as [vehicle|]; [|exact Htidy].
  rewrite Hlock. destruct Htidy as [Hreg Hdistinct Hrange].
  pose proof (own_absent _ _ (eq_ind _ (@NoDup N) Hdistinct _ Hreg)) as Habsent.
  set (cb := {| _parent := GetId vehicle; _parent_bounding_box := GetBoundingBox vehicle;
                CalculateCrossedLanes := GetCurrentMap (episode w);
                _callback := callback |}).
  pose proof (registered_register cb (episode w)) as Hnew.
  destruct (register cb (episode w)) as [callback_id episode1] eqn:Hregister.
  assert (Hid : callback_id = N.succ (last_id (episode w)))
    by (unfold register in Hregister; congruence).
  assert (Hlast : last_id episode1 = callback_id)
    by (unfold register in Hregister; injection Hregister as <- <-; reflexivity).
  cbn [snd] in Hnew. rewrite <- Hid in Hnew.
  assert (Hfresh : ~ In callback_id (registered (episode w))).
  { intros Hin. rewrite Forall_forall in Hrange. apply Hrange in Hin. lia. }
  assert (Hown : own callback_id = [callback_id]).
  { unfold own. destruct (N.eqb_spec callback_id 0); [lia|reflexivity]. }
  assert (Hrange1 : Forall (fun id => 0 < id <= callback_id)%N (registered episode1)).
  { rewrite Hnew. apply Forall_app. split.
    - eapply Forall_impl; [|exact Hrange]. cbv beta. intros id. lia.
    - constructor; [lia|constructor]. }
  assert (Hdistinct1 : NoDup (registered episode1)).
  { rewrite Hnew. apply NoDup_app; [exact Hdistinct|repeat constructor; simpl; tauto|].
    intros id Hin [<-|[]]. contradiction. }
  unfold own in Hreg, Habsent.
  destruct (N.eqb_spec (_callback_id w) 0) as [Hzero|Hne]; cbn [negb fst snd].
  - split; cbn [with_callback_id episode _callback_id]; rewrite ?Hlast; auto.
    rewrite Hnew, Hreg, Hown, app_nil_r. reflexivity.
  - destruct Habsent as [Habsent|Habsent]; [|contradiction].
    split; cbn [with_callback_id episode _callback_id].
    + rewrite registered_remove, Hnew, Hreg, !filter_app, (@filter_absent _ _ Habsent), Hown.
      cbn [filter]. rewrite N.eqb_refl.
      destruct (N.eqb_spec callback_id (_callback_id w)) as [Heq|_];
        [|cbn [negb]; rewrite app_nil_r; reflexivity].
      exfalso. apply Hfresh. rewrite Hreg, Heq. apply in_or_app. right. simpl. auto.
    + rewrite registered_remove. apply NoDup_filter, Hdistinct1.
    + rewrite registered_remove. cbn [remove last_id]. rewrite Hlast.
      apply Forall_forall. intros id Hin. apply filter_In in Hin.
      rewrite Forall_forall in Hrange1. apply Hrange1, Hin.
Qed.

Lemma Listen_lockable callback (w : World LaneMarking) :
  lockable (snd (fst (Listen callback w))) = lockable w.
Proof.
  unfold Listen. destruct (as_vehicle (GetParent w)); [|reflexivity].
  destruct (lockable w) eqn:Hlock; [|exact Hlock].
  destruct (register _ _). destruct (negb _); exact Hlock.
Qed.

Lemma Stop_lockable (w : World LaneMarking) : lockable (fst (Stop w)) = lockable w.
Proof. unfold Stop. destruct (_ && _); reflexivity. Qed.

Lemma serve_all_tidy others requests (w : World LaneMarking) :
  tidy others w -> lockable w = true ->
  tidy others (serve_all requests w) /\ lockable (serve_all requests w) = true.
Proof.
  revert w. induction requests as [|r requests IH]; intros w Htidy Hlock; [auto|].
  cbn [serve_all fold_left]. apply IH; destruct r as [callback|]; cbn [serve].
  - apply Listen_tidy; assumption.
  - apply Stop_tidy; assumption.
  - rewrite Listen_lockable. exact Hlock.
  - rewrite Stop_lockable. exact Hlock.
Qed.

Lemma serve_all_parent requests (w : World LaneMarking) :
  GetParent (serve_all requests w) = GetParent w.
Proof.
  revert w. induction requests as [|r requests IH]; intros w; [reflexivity|].
  cbn [serve_all fold_left]. fold (serve_all requests (serve w r)). rewrite IH.
  destruct r as [callback|]; cbn [serve].
  - unfold Listen. destruct (as_vehicle (GetParent w)); [|reflexivity].
    destruct (lockable w); [|reflexivity].
    destruct (register _ _). destruct (negb _); reflexivity.
  - unfold Stop. destruct (_ && _); reflexivity.
Qed.

Lemma Stop_idle (w : World LaneMarking) : _callback_id w = 0%N -> Stop w = (w, []).
Proof. destruct w. cbn [_callback_id]. intros ->. reflexivity. Qed.

Lemma Listen_vehicle callback vehicle (w : World LaneMarking) :
  as_vehicle (GetParent w) = Some vehicle ->
  lockable w = true ->
  let id := N.succ (last_id (episode w)) in
  let installed := snd (register (handler_for callback vehicle w) (episode w)) in
  Listen callback w
  = (Returned,
     with_callback_id id
       (if (_callback_id w =? 0)%N then installed else remove (_callback_id w) installed) w,
     RegisterOnTickEvent id :: map RemoveOnTickEvent (own (_callback_id w))).
Proof.
  intros Hvehicle Hlock. cbv zeta. unfold Listen, own. rewrite Hvehicle, Hlock.
  unfold register, handler_for. cbn [snd].
  destruct (_callback_id w =? 0)%N; reflexivity.
Qed.

Lemma Listen_detached callback (w : World LaneMarking) :
  as_vehicle (GetParent w) = None ->
  Listen callback w
  = (Returned, w, [log_error [GetDisplayId w; ": not attached to a vehicle"%string]]).
Proof. intros Hnone. unfold Listen. rewrite Hnone. reflexivity. Qed.

Lemma Stop_lockable_result (w : World LaneMarking) :
  lockable w = true ->
  Stop w
  = (with_callback_id 0
       (if (_callback_id w =? 0)%N then episode w else remove (_callback_id w) (episode w)) w,
     map RemoveOnTickEvent (own (_callback_id w))).
Proof.
  intros Hlock. unfold Stop, own. rewrite Hlock, andb_true_r.
  destruct (_callback_id w =? 0)%N; reflexivity.
Qed.

End SensorFacts.

(** C10.  When the episode can no longer be locked, [Stop] sets the stored
    identifier to 0 and calls nothing: the episode, and with it the
    registration that was active, is left as it was. *)
Theorem stop_without_episode (LaneMarking : Type) (w : World LaneMarking) :
  lockable w = false ->
  _callback_id w <> 0%N ->
  Stop w = (with_callback_id 0 (episode w) w, [])
  /\ _callback_id (fst (Stop w)) = 0%N
  /\ snd (Stop w) = []
  /\ episode (fst (Stop w)) = episode w
  /\ (In (_callback_id w) (registered (episode w)) ->
      In (_callback_id w) (registered (episode (fst (Stop w))))).
Proof.
  intros Hlock Hactive. unfold Stop. rewrite Hlock, andb_false_r. cbn [fst snd].
  repeat split; auto.
Qed.

Lemma stop_without_episode_witness :
  let w := expire Example.listening in
  Stop w = (with_callback_id 0 (episode w) w, [])
  /\ _callback_id (fst (Stop w)) = 0%N
  /\ snd (Stop w) = []
  /\ episode (fst (Stop w)) = episode w
  /\ (In (_callback_id w) (registered (episode w)) ->
      In (_callback_id w) (registered (episode (fst (Stop w))))).
Proof.
  apply (@stop_without_episode Example.Marking (expire Example.listening)).
  - reflexivity.
  - vm_compute. discriminate.
Defined.

(** C7, as stated, fails.  The sensor listens, which registers its handler
    under the identifier 2, and then the episode can no longer be locked.
    [Stop] forgets the identifier but removes nothing: the handler is still
    registered. *)
Lemma stop_leaves_registration :
  let w := expire Example.listening in
  _callback_id w = 2%N
  /\ live [1%N] w = [2%N]
  /\ Stop w = (with_callback_id 0 (episode w) w, [])
  /\ live [1%N] (fst (Stop w)) = [2%N]
  /\ ~ live [1%N] (fst (Stop w)) = [].
Proof.
  cbv zeta. repeat split; try (vm_compute; reflexivity).
  vm_compute. discriminate.
Qed.

(** C7, amended.  While the episode can be locked, after any calls of
    [Listen] and [Stop] the handlers this sensor has registered and not
    removed are exactly the one whose identifier it stores, none when that
    is 0; so there is at most one.  [Listen] on a vehicle registers the new
    handler first, then removes the old one if there was one: both are
    registered in between, and afterwards the new one alone, also when
    [Listen] is called again.  [Listen] on a sensor not attached to a vehicle
    only logs an error.  [Stop] removes the stored registration if there is
    one, leaves none, and a second [Stop] changes nothing and calls
    nothing. *)
Theorem one_registration_between_calls
    (LaneMarking : Type) (others : list N) (w0 : World LaneMarking)
    (requests : list (request LaneMarking)) :
  lockable w0 = true ->
  tidy others w0 ->
  let w := serve_all requests w0 in
  live others w = own (_callback_id w)
  /\ List.length (live others w) <= 1
  /\ (forall callback vehicle,
      as_vehicle (GetParent w) = Some vehicle ->
      let id := N.succ (last_id (episode w)) in
      let w' := snd (fst (Listen callback w)) in
      fst (fst (Listen callback w)) = Returned
      /\ snd (Listen callback w)
         = RegisterOnTickEvent id :: map RemoveOnTickEvent (own (_callback_id w))
      /\ registered (snd (register (handler_for callback vehicle w) (episode w)))
         = others ++ own (_callback_id w) ++ [id]
      /\ _callback_id w' = id
      /\ live others w' = [id]
      /\ forall callback',
           live others (snd (fst (Listen callback' w'))) = [N.succ id])
  /\ (as_vehicle (GetParent w) = None ->
      forall callback,
        Listen callback w
        = (Returned, w, [log_error [GetDisplayId w; ": not attached to a vehicle"%string]]))
  /\ snd (Stop w) = map RemoveOnTickEvent (own (_callback_id w))
  /\ _callback_id (fst (Stop w)) = 0%N
  /\ live others (fst (Stop w)) = []
  /\ Stop (fst (Stop w)) = (fst (Stop w), []).
Proof.
  intros Hlock0 Htidy0 w.
  destruct (serve_all_tidy requests Htidy0 Hlock0) as [Htidy Hlock]. fold w in Htidy, Hlock.
  assert (Hlisten : forall (v : World LaneMarking) callback vehicle,
             tidy others v -> lockable v = true ->
             as_vehicle (GetParent v) = Some vehicle ->
             _callback_id (snd (fst (Listen callback v))) = N.succ (last_id (episode v))
             /\ last_id (episode (snd (fst (Listen callback v)))) = N.succ (last_id (episode v))
             /\ live others (snd (fst (Listen callback v))) = [N.succ (last_id (episode v))]).
  { intros v callback vehicle Hv Hvlock Hvehicle.
    pose proof (Listen_tidy callback Hv Hvlock) as Hv'.
    pose proof (tidy_live Hv') as Hlive. rewrite Hlive.
    rewrite (Listen_vehicle callback v Hvehicle Hvlock). cbn [fst snd with_callback_id _callback_id episode].
    split; [reflexivity|]. split.
    - destruct (_callback_id v =? 0)%N; reflexivity.
    - unfold own. destruct (N.eqb_spec (N.succ (last_id (episode v))) 0); [lia|reflexivity]. }
  split; [apply tidy_live, Htidy|]. split.
  { rewrite (tidy_live Htidy). unfold own. destruct (_callback_id w =? 0)%N; simpl; lia. }
  split.
  { intros callback vehicle Hvehicle. cbv zeta.
    destruct (Hlisten w callback vehicle Htidy Hlock Hvehicle) as (Hid & Hlast & Hlive).
    rewrite (Listen_vehicle callback w Hvehicle Hlock) in *. cbn [fst snd] in *.
    split; [reflexivity|]. split; [reflexivity|]. split.
    { rewrite registered_register, (tidy_registered Htidy), <- app_assoc. reflexivity. }
    split; [exact Hid|]. split; [exact Hlive|].
    intros callback'.
    pose proof (Listen_tidy callback Htidy Hlock) as Htidy'.
    pose proof (Listen_lockable callback w) as Hlock'. rewrite Hlock in Hlock'.
    rewrite (Listen_vehicle callback w Hvehicle Hlock) in Htidy', Hlock'. cbn [fst snd] in *.
    match goal with
    | |- live others (snd (fst (Listen callback' ?v))) = _ =>
        destruct (Hlisten v callback' vehicle Htidy' Hlock') as (_ & _ & Hlive');
        [exact Hvehicle|rewrite Hlive', Hlast; reflexivity]
    end. }
  split; [intros Hnone callback; apply Listen_detached; exact Hnone|].
  pose proof (Stop_tidy Htidy Hlock) as Hstop.
  pose proof (tidy_live Hstop) as Hlive.
  rewrite (Stop_lockable_result w Hlock) in *. cbn [fst snd] in *.
  split; [reflexivity|]. split; [reflexivity|]. split; [exact Hlive|].
  apply Stop_idle. reflexivity.
Qed.

Lemma attached_tidy : tidy [1%N] Example.attached.
Proof.
  split.
  - reflexivity.
  - change (NoDup [1%N]). constructor; [intros []|constructor].
  - change (Forall (fun id => 0 < id <= 1)%N [1%N]). constructor; [lia|constructor].
Qed.

Lemma one_registration_between_calls_witness :
  let w := serve_all [DoListen Example.quiet; DoStop; DoListen Example.failing]
             Example.attached in
  live [1%N] w = [3%N]
  /\ snd (Listen Example.quiet w) = [RegisterOnTickEvent 4; RemoveOnTickEvent 3]
  /\ live [1%N] (snd (fst (Listen Example.quiet w))) = [4%N]
  /\ snd (Stop w) = [RemoveOnTickEvent 3]
  /\ live [1%N] (fst (Stop w)) = []
  /\ Stop (fst (Stop w)) = (fst (Stop w), []).
Proof.
  intros w.
  destruct (@one_registration_between_calls Example.Marking [1%N] Example.attached
              [DoListen Example.quiet; DoStop; DoListen Example.failing]
              eq_refl attached_tidy)
    as (Hlive & _ & Hlisten & _ & Hcalls & _ & Hnone & Hidle).
  fold w in Hlive, Hlisten, Hcalls, Hnone, Hidle.
  destruct (Hlisten Example.quiet {| GetId := Example.car; GetBoundingBox := Example.box |}
              eq_refl) as (_ & Hregister & _ & _ & Hnew & _).
  split; [rewrite Hlive; reflexivity|].
  split; [rewrite Hregister; reflexivity|].
  split; [rewrite Hnew; reflexivity|].
  split; [rewrite Hcalls; reflexivity|].
  split; [exact Hnone|exact Hidle].
Defined.

(** * Further properties of the detector *)

Lemma nth_error_replace_nth {A : Type} (i : nat) (a b : A) (l : list A) :
  nth_error l i = Some b -> nth_error (replace_nth i a l) i = Some a.
Proof.
  revert i. induction l as [|c l IH]; intros [|i]; simpl; try discriminate; auto.
Qed.

Lemma replace_nth_last {A : Type} (a b : A) (l : list A) :
  replace_nth (List.length l) b (l ++ [a]) = l ++ [b].
Proof. induction l as [|c l IH]; simpl; [reflexivity|rewrite IH; reflexivity]. Qed.

Lemma nth_error_last {A : Type} (a : A) (l : list A) :
  nth_error (l ++ [a]) (List.length l) = Some a.
Proof. induction l as [|c l IH]; simpl; auto. Qed.

Lemma replace_nth_length {A : Type} (i : nat) (a : A) (l : list A) :
  List.length (replace_nth i a l) = List.length l.
Proof. revert i. induction l as [|c l IH]; intros [|i]; simpl; auto. Qed.

Section Progress.

Variable libm : Libm.
Variable LaneMarking : Type.
Variable cb : LaneInvasionCallback LaneMarking.

Lemma behind_check_distance snapshot parent current next :
  behind current (check_distance snapshot parent (Some current) next).
Proof. unfold check_distance. destruct (too_close _ _); simpl; auto. Qed.

Lemma exec_prevs_behind s a :
  consistent s -> prevs_behind s -> prevs_behind (exec libm cb s a).
Proof.
  intros Hs Hbehind. destruct a as [snapshot|i]; cbn [exec].
  - intros current Hslot. cbn [shared pool] in *. apply Forall_app. split; [auto|].
    repeat constructor.
  - destruct (nth_error (pool s) i) as [t|] eqn:Hnth; [|exact Hbehind].
    assert (Hin : In t (pool s)) by (eapply nth_error_In; eauto).
    pose proof (step_cases libm cb t (shared s)) as Hcase.
    destruct (step libm cb t (shared s)) as [[t' st'] effects].
    intros current Hslot. cbn [shared pool] in *.
    inversion Hcase; subst; clear Hcase; cbn [_bounds kept] in *;
      try (apply Forall_replace_nth; [exact I|auto]; fail).
    + apply Forall_replace_nth; [|auto].
      replace current with prev by congruence. apply behind_check_distance.
    + apply Forall_replace_nth; [exact I|].
      pose proof (null_early Hs) as Hearly.
      match goal with H : _bounds (shared s) = None |- _ => specialize (Hearly H) end.
      eapply Forall_impl; [|exact Hearly].
      intros [ | | | | ]; simpl; tauto.
    + apply Forall_replace_nth; [|auto].
      match goal with H : _bounds (shared s) = Some ?c |- _ =>
        replace current with c by congruence end.
      apply behind_check_distance.
    + destruct (report_finishes cb snapshot parent prev next) as [c Hc]. rewrite Hc.
      apply Forall_replace_nth; [exact I|].
      injection Hslot as <-.
      match goal with
      | Hc : _bounds (shared s) = Some ?c, Ha : addr ?c = addr prev,
        Hlt : (frame (pointee prev) < frame (pointee next))%N |- _ =>
          assert (c = prev)
            by (apply (held_unique Hs);
                [left; exact Hc | right; eexists; split; [exact Hin|simpl; auto] | exact Ha]);
          subst c; specialize (Hbehind prev Hc);
          eapply Forall_impl; [|exact Hbehind];
          intros [ | |snapshot' parent' prev' next'| | ]; simpl; auto;
          intros [->|Holder]; right; lia
      end.
    + apply Forall_replace_nth; [|auto]. simpl. left. congruence.
    + apply Forall_replace_nth; [|auto]. specialize (Hbehind current Hslot).
      rewrite Forall_forall in Hbehind. apply Hbehind, Hin.
Qed.

Lemma run_schedule_prevs_behind schedule s :
  consistent s -> prevs_behind s ->
  prevs_behind (run_schedule libm cb schedule s).
Proof.
  revert s. induction schedule as [|a schedule IH]; intros s Hs Hbehind; [exact Hbehind|].
  cbn [run_schedule fold_left]. apply IH.
  - apply exec_consistent, Hs.
  - apply exec_prevs_behind; assumption.
Qed.

Lemma fresh_prevs_behind : prevs_behind (fresh_system LaneMarking).
Proof. intros current. discriminate. Qed.

End Progress.

Lemma filter_replace_nth {A : Type} (p : A -> bool) (i : nat) (a b : A) (l : list A) :
  nth_error l i = Some b ->
  List.length (filter p (replace_nth i a l)) + (if p b then 1 else 0)
  = List.length (filter p l) + (if p a then 1 else 0).
Proof.
  revert i. induction l as [|c l IH]; intros [|i]; simpl; try discriminate.
  - intros [= ->]. destruct (p a), (p b); simpl; lia.
  - intros Hnth. specialize (IH i Hnth). destruct (p c); simpl; lia.
Qed.

Section Accounting.

Variable libm : Libm.
Variable LaneMarking : Type.
Variable cb : LaneInvasionCallback LaneMarking.

Lemma report_delivers_once snapshot parent prev next :
  List.length (filter (@is_delivered LaneMarking) (snd (report cb snapshot parent prev next)))
  <= 1.
Proof.
  rewrite report_unfold. cbv zeta.
  destruct (crossed_lanes cb (pointee prev) (pointee next)); simpl; lia.
Qed.

Lemma exec_events s a :
  List.length (filter (@is_delivered LaneMarking) (observed s))
  <= List.length (filter is_finished (pool s)) ->
  List.length (filter (@is_delivered LaneMarking) (observed (exec libm cb s a)))
  <= List.length (filter is_finished (pool (exec libm cb s a))).
Proof.
  intros Hcount. destruct a as [snapshot|i]; cbn [exec].
  - cbn [observed pool]. rewrite filter_app, length_app. lia.
  - destruct (nth_error (pool s) i) as [t|] eqn:Hnth; [|exact Hcount].
    pose proof (step_cases libm cb t (shared s)) as Hcase.
    destruct (step libm cb t (shared s)) as [[t' st'] effects]. cbn [observed pool].
    pose proof (filter_replace_nth is_finished i t' (pool s) Hnth) as Hreplace.
    rewrite filter_app, length_app.
    inversion Hcase; subst; clear Hcase; cbn [is_finished filter List.length] in *;
      try (unfold check_distance in *; destruct (too_close _ _));
      cbn [is_finished] in *; try lia.
    pose proof (report_delivers_once snapshot parent prev next).
      destruct (report_finishes cb snapshot parent prev next) as [c Hc].
      rewrite Hc in *. cbn [is_finished] in Hreplace. lia.
Qed.

Lemma exec_pool_length s a :
  List.length (pool (exec libm cb s a))
  = List.length (pool s) + dispatched [a].
Proof.
  destruct a as [snapshot|i]; cbn [exec dispatched filter List.length].
  - cbn [pool]. rewrite length_app. reflexivity.
  - destruct (nth_error (pool s) i) as [t|]; [|lia].
    destruct (step libm cb t (shared s)) as [[t' st'] effects]. cbn [pool].
    rewrite replace_nth_length. lia.
Qed.

Lemma run_schedule_events schedule s :
  List.length (filter (@is_delivered LaneMarking) (observed s))
  <= List.length (filter is_finished (pool s)) ->
  List.length (filter (@is_delivered LaneMarking)
                 (observed (run_schedule libm cb schedule s)))
  <= List.length (filter is_finished (pool (run_schedule libm cb schedule s)))
  /\ List.length (pool (run_schedule libm cb schedule s))
     = List.length (pool s) + dispatched schedule.
Proof.
  revert s. induction schedule as [|a schedule IH]; intros s Hcount.
  - cbn. split; [exact Hcount|lia].
  - cbn [run_schedule fold_left].
    destruct (IH (exec libm cb s a) (exec_events s a Hcount)) as [Hevents Hlength].
    split; [exact Hevents|]. unfold run_schedule in Hlength. rewrite Hlength.
    rewrite exec_pool_length. unfold dispatched. cbn [filter].
    destruct a; cbn [List.length]; lia.
Qed.





End Accounting.

(** X1.  Whatever way the steps of the ticks of a new detector alternate, no
    tick ever dereferences a null [prev], and once [_bounds] holds a
    snapshot it holds one for ever. *)
Theorem no_null_dereference
    (libm : Libm) (LaneMarking : Type) (cb : LaneInvasionCallback LaneMarking)
    (schedule more : list action) :
  let s := run_schedule libm cb schedule (fresh_system LaneMarking) in
  Forall (fun t => t <> NullDereference) (pool s)
  /\ (_bounds (shared s) <> None ->
      _bounds (shared (run_schedule libm cb more s)) <> None).
Proof.
  intros s. split.
  - apply never_null. apply run_schedule_consistent, fresh_consistent.
  - generalize s. clear s. induction more as [|a more IH]; intros s Hslot; [exact Hslot|].
    cbn [run_schedule fold_left]. apply IH, exec_keeps_committed, Hslot.
Qed.

Lemma no_null_dereference_witness :
  let s := run_schedule taylor_libm (Example.detector Example.quiet)
             [Dispatch (Example.world 1 Example.before_line); Advance 0; Advance 0]
             (fresh_system Example.Marking) in
  _bounds (shared (run_schedule taylor_libm (Example.detector Example.quiet)
                     [Dispatch (Example.empty_world 2); Advance 1;
                      Dispatch (Example.world 3 Example.after_line); Advance 2; Advance 2]
                     s))
  <> None.
Proof.
  intros s.
  apply (no_null_dereference taylor_libm (Example.detector Example.quiet)
           [Dispatch (Example.world 1 Example.before_line); Advance 0; Advance 0]).
  vm_compute. discriminate.
Defined.

(** X2.  The commit loop makes progress.  In every interleaving from a new
    detector, a tick that loses its exchange and stays in the loop holds
    afterwards the committed snapshot as [prev], and this snapshot has a
    frame number strictly greater than the one of the [prev] it held before;
    its [next] and its world snapshot are unchanged.  So a tick loses at
    most as many exchanges as there are frame numbers between its first
    [prev] and its [next]. *)
Theorem lost_exchange_advances_prev
    (libm : Libm) (LaneMarking : Type) (cb : LaneInvasionCallback LaneMarking)
    (schedule : list action) (i : nat)
    (snapshot snapshot' : WorldSnapshot.t) (parent parent' : ActorSnapshot.t)
    (prev next prev' next' : BoundsPtr) :
  let s := run_schedule libm cb schedule (fresh_system LaneMarking) in
  nth_error (pool s) i = Some (AtCommit snapshot parent prev next) ->
  nth_error (pool (exec libm cb s (Advance i))) i
  = Some (AtCommit snapshot' parent' prev' next') ->
  snapshot' = snapshot /\ parent' = parent /\ next' = next
  /\ _bounds (shared s) = Some prev'
  /\ shared (exec libm cb s (Advance i)) = shared s
  /\ (frame (pointee prev) < frame (pointee prev'))%N.
Proof.
  intros s Hnth. cbn [exec]. rewrite Hnth.
  assert (Hs : consistent s) by apply run_schedule_consistent, fresh_consistent.
  assert (Hbehind : prevs_behind s)
    by (apply run_schedule_prevs_behind; [apply fresh_consistent|apply fresh_prevs_behind]).
  assert (Hin : In (AtCommit snapshot parent prev next) (pool s))
    by (eapply nth_error_In; eauto).
  pose proof (step_cases libm cb (AtCommit snapshot parent prev next) (shared s)) as Hcase.
  destruct (step libm cb (AtCommit snapshot parent prev next) (shared s))
    as [[t' st'] effects]. cbn [pool shared].
  rewrite (nth_error_replace_nth _ _ _ Hnth). intros [= ->].
  inversion Hcase; subst; clear Hcase;
    try match goal with H : AtCommit _ _ _ _ = _ |- _ => inversion H; subst; clear H end;
    try match goal with H : _ = AtCommit _ _ _ _ |- _ => inversion H; subst; clear H end;
    try discriminate.
  - destruct (report_finishes cb snapshot0 parent0 prev0 next0) as [c Hc]. congruence.
  - repeat split; auto.
    match goal with Hslot : _bounds (shared s) = Some prev', Hne : addr prev' <> _ |- _ =>
      specialize (Hbehind prev' Hslot);
      rewrite Forall_forall in Hbehind; specialize (Hbehind _ Hin); cbn [behind] in Hbehind;
      destruct Hbehind as [->|Holder]; [congruence|exact Holder]
    end.
Qed.

Lemma lost_exchange_advances_prev_witness :
  _bounds (shared (run_schedule taylor_libm (Example.detector Example.quiet)
                     (firstn 8 Example.late_tick_schedule)
                     (fresh_system Example.Marking)))
  = Some Example.snapshot_early
  /\ (frame (pointee Example.snapshot_before) < frame (pointee Example.snapshot_early))%N.
Proof.
  destruct (@lost_exchange_advances_prev taylor_libm Example.Marking
              (Example.detector Example.quiet) (firstn 8 Example.late_tick_schedule) 1
              (Example.world 3 Example.after_line) (Example.world 3 Example.after_line)
              (Example.car_at Example.after_line) (Example.car_at Example.after_line)
              Example.snapshot_before Example.snapshot_late
              Example.snapshot_early Example.snapshot_late)
    as (_ & _ & _ & Hslot & _ & Hframe).
  - vm_compute. reflexivity.
  - vm_compute. reflexivity.
  - split; assumption.
Defined.

(** X17.  No update is lost.  In every interleaving from a new detector, a
    tick that leaves its commit loop leaves the slot holding a snapshot at
    least as new as its own: its own snapshot when its exchange succeeded,
    and otherwise a committed snapshot whose frame number is not below the
    frame number of the snapshot the tick gave up. *)
Theorem no_update_is_lost
    (libm : Libm) (LaneMarking : Type) (cb : LaneInvasionCallback LaneMarking)
    (schedule : list action) (i : nat)
    (snapshot : WorldSnapshot.t) (parent : ActorSnapshot.t) (prev next : BoundsPtr)
    (c : completion) :
  let s := run_schedule libm cb schedule (fresh_system LaneMarking) in
  let s' := exec libm cb s (Advance i) in
  nth_error (pool s) i = Some (AtCommit snapshot parent prev next) ->
  nth_error (pool s') i = Some (Finished c) ->
  exists current,
    _bounds (shared s') = Some current
    /\ (frame (pointee next) <= frame (pointee current))%N
    /\ (current <> next -> shared s' = shared s /\ observed s' = observed s).
Proof.
  intros s s' Hnth. subst s'. cbn [exec]. rewrite Hnth.
  assert (Hs : consistent s) by apply run_schedule_consistent, fresh_consistent.
  assert (Hbehind : prevs_behind s)
    by (apply run_schedule_prevs_behind; [apply fresh_consistent|apply fresh_prevs_behind]).
  assert (Hin : In (AtCommit snapshot parent prev next) (pool s))
    by (eapply nth_error_In; eauto).
  assert (Hcommitted : exists current, _bounds (shared s) = Some current).
  { destruct (_bounds (shared s)) as [current|] eqn:Hslot; [eauto|].
    pose proof (null_early Hs Hslot) as Hearly. rewrite Forall_forall in Hearly.
    destruct (Hearly _ Hin). }
  destruct Hcommitted as [current Hslot].
  pose proof (Hbehind current Hslot) as Hprev. rewrite Forall_forall in Hprev.
  specialize (Hprev _ Hin). cbn [behind] in Hprev.
  pose proof (step_cases libm cb (AtCommit snapshot parent prev next) (shared s)) as Hcase.
  destruct (step libm cb (AtCommit snapshot parent prev next) (shared s))
    as [[t' st'] effects]. cbn [pool shared observed].
  rewrite (nth_error_replace_nth _ _ _ Hnth). intros [= ->].
  inversion Hcase; subst; clear Hcase;
    try match goal with H : AtCommit _ _ _ _ = _ |- _ => inversion H; subst; clear H end;
    try match goal with H : _ = AtCommit _ _ _ _ |- _ => inversion H; subst; clear H end;
    try discriminate.
  - exists current. split; [exact Hslot|]. split.
    + destruct Hprev as [->|Holder]; lia.
    + intros _. rewrite app_nil_r. split; reflexivity.
  - exists next0. split; [reflexivity|]. split; [lia|]. intros Hne. congruence.
Qed.

Lemma no_update_is_lost_witness :
  exists current,
    _bounds (shared (run_schedule taylor_libm (Example.detector Example.quiet)
                       (Example.late_tick_schedule ++ [Advance 1; Advance 2; Advance 2])
                       (fresh_system Example.Marking)))
    = Some current
    /\ (3 <= frame (pointee current))%N.
Proof.
  destruct (@no_update_is_lost taylor_libm Example.Marking (Example.detector Example.quiet)
              Example.late_tick_schedule 1
              (Example.world 3 Example.after_line) (Example.car_at Example.after_line)
              Example.snapshot_early Example.snapshot_late Returned)
    as (current & Hslot & Hframe & _).
  - vm_compute. reflexivity.
  - vm_compute. reflexivity.
  - exists Example.snapshot_late. split; [vm_compute; reflexivity|].
    vm_compute in Hslot. injection Hslot as <-. exact Hframe.
Defined.

(** X3.  A tick that runs alone is one of the interleavings: dispatching a
    tick and letting it make two steps with no other tick in between leaves
    the store of [Tick], adds the effects of [Tick] to those observed, and
    the tick has finished. *)
Theorem Tick_is_a_schedule
    (libm : Libm) (LaneMarking : Type) (cb : LaneInvasionCallback LaneMarking)
    (s : System LaneMarking) (snapshot : WorldSnapshot.t) :
  let n := List.length (pool s) in
  let result := Tick libm cb snapshot (shared s) in
  run_schedule libm cb [Dispatch snapshot; Advance n; Advance n] s
  = {| shared := snd (fst result);
       pool := pool s ++ [fst (fst result)];
       observed := observed s ++ snd result |}
  /\ exists c, fst (fst result) = Finished c.
Proof.
  cbv zeta. split; [|apply Tick_finishes].
  rewrite Tick_two_steps. cbn [run_schedule fold_left exec pool shared observed].
  rewrite nth_error_last.
  destruct (step libm cb (AtEntry snapshot) (shared s)) as [[t1 st1] effects1].
  cbn [pool shared observed]. rewrite replace_nth_last, nth_error_last.
  destruct (step libm cb t1 st1) as [[t2 st2] effects2].
  cbn [fst snd]. rewrite replace_nth_last, app_assoc. reflexivity.
Qed.

(** X4.  No tick delivers more than one event: in every interleaving from a
    new detector the number of calls of the subscriber is at most the number
    of ticks that have finished, which is at most the number of ticks the
    scheduler started. *)
Theorem events_bounded_by_ticks
    (libm : Libm) (LaneMarking : Type) (cb : LaneInvasionCallback LaneMarking)
    (schedule : list action) :
  let s := run_schedule libm cb schedule (fresh_system LaneMarking) in
  List.length (filter (@is_delivered LaneMarking) (observed s))
  <= List.length (filter is_finished (pool s))
  /\ List.length (filter is_finished (pool s)) <= List.length (pool s)
  /\ List.length (pool s) = dispatched schedule.
Proof.
  intros s.
  destruct (run_schedule_events libm cb schedule (fresh_system LaneMarking)) as [Hevents Hlen].
  - simpl. lia.
  - split; [exact Hevents|]. split; [apply filter_length_le|exact Hlen].
Qed.



(** X6.  The subscriber has no hold on the detector: the store a tick leaves
    and the queries and events it produces are the same whatever the
    subscriber does with the events; only the way the tick ends depends on
    it, and the handler leaves the same store as the tick. *)
Theorem subscriber_cannot_change_store
    (libm : Libm) (LaneMarking : Type) (cb : LaneInvasionCallback LaneMarking)
    (callback : LaneInvasionEvent LaneMarking -> completion)
    (snapshot : WorldSnapshot.t) (st : Store) :
  snd (fst (Tick libm (with_callback cb callback) snapshot st))
  = snd (fst (Tick libm cb snapshot st))
  /\ snd (Tick libm (with_callback cb callback) snapshot st) = snd (Tick libm cb snapshot st)
  /\ snd (fst (handler libm (with_callback cb callback) snapshot st))
     = snd (fst (Tick libm cb snapshot st))
  /\ (fst (fst (Tick libm cb snapshot st)) = Finished Returned
      \/ exists event, In (Delivered event) (snd (Tick libm cb snapshot st))
                       /\ fst (fst (Tick libm cb snapshot st)) = Finished (_callback cb event)).
Proof.
  destruct (Tick_with_callback libm cb callback snapshot st) as [Hstore Heffects].
  split; [exact Hstore|]. split; [exact Heffects|]. split.
  - rewrite handler_store. exact Hstore.
  - destruct (WorldSnapshot.Find snapshot (_parent cb)) as [parent|] eqn:Hfind.
    + destruct (_bounds st) as [prev|] eqn:Hslot.
      * erewrite Tick_later by eassumption. cbv zeta.
        destruct (too_close _ _); [auto|]. destruct (_ <=? _)%N; [auto|].
        rewrite report_unfold. cbv zeta. destruct (crossed_lanes cb _ _); cbn [fst snd]; auto.
        right. eexists. split; [|reflexivity]. apply in_or_app. right. left. reflexivity.
      * erewrite Tick_first by eassumption. auto.
    + erewrite Tick_absent by eassumption. auto.
Qed.

(** ** Positions that are not numbers *)

Lemma add_nan_r (a : F32.float) : (a + S754_nan)%f32 = S754_nan.
Proof. destruct a as [s|s| |s m e]; reflexivity. Qed.

Lemma sub_nan_r (a : F32.float) : (a - S754_nan)%f32 = S754_nan.
Proof. destruct a as [s|s| |s m e]; reflexivity. Qed.

Lemma Length_nan (v : Vector3D) :
  x v = S754_nan \/ y v = S754_nan \/ z v = S754_nan -> Length v = S754_nan.
Proof.
  unfold Length, SquaredLength. intros [H|[H|H]]; rewrite H.
  - reflexivity.
  - change (S754_nan * S754_nan)%f32 with S754_nan. rewrite add_nan_r. reflexivity.
  - change (S754_nan * S754_nan)%f32 with S754_nan. rewrite add_nan_r. reflexivity.
Qed.

Lemma MakeBounds_nan (libm : Libm) (box : BoundingBox) (n : N) (transform : Transform) :
  has_nan (location transform) ->
  forall i, has_nan (get4 (corners (MakeBounds libm box n transform)) i).
Proof.
  unfold has_nan. intros Hnan i.
  destruct i; cbn [MakeBounds corners get4 elt0 elt1 elt2 elt3 Location_add x y z];
    destruct Hnan as [H|[H|H]]; rewrite H; auto.
Qed.

Lemma displacement_nan_next (prev next : Bounds) (i : index4) :
  has_nan (get4 (corners next) i) -> displacement prev next i = S754_nan.
Proof.
  intros Hnan. unfold displacement. apply Length_nan.
  unfold has_nan in *. cbn [Location_sub x y z]. destruct Hnan as [H|[H|H]]; rewrite H; auto.
Qed.

Lemma displacement_nan_prev (prev next : Bounds) (i : index4) :
  has_nan (get4 (corners prev) i) -> displacement prev next i = S754_nan.
Proof.
  intros Hnan. unfold displacement. apply Length_nan.
  unfold has_nan in *. cbn [Location_sub x y z].
  destruct Hnan as [H|[H|H]]; rewrite H, sub_nan_r; auto.
Qed.

(** X7.  A position that is not a number is never taken for a standstill.
    When a coordinate of the actor's location is NaN, every corner of the
    snapshot has a NaN coordinate, every displacement is NaN and compares
    below nothing, so the distance check lets the tick through: on a
    committed snapshot of an older frame the tick commits.  The same holds
    when the committed snapshot has a NaN coordinate in every corner. *)
Theorem nan_position_passes_distance_check
    (libm : Libm) (LaneMarking : Type) (cb : LaneInvasionCallback LaneMarking)
    (snapshot : WorldSnapshot.t) (parent : ActorSnapshot.t) (prev : BoundsPtr) (st : Store) :
  WorldSnapshot.Find snapshot (_parent cb) = Some parent ->
  _bounds st = Some prev ->
  has_nan (location (ActorSnapshot.transform parent))
  \/ (forall i, has_nan (get4 (corners (pointee prev)) i)) ->
  let next := built libm cb snapshot parent st in
  too_close (pointee prev) (pointee next) = false
  /\ ((frame (pointee prev) < WorldSnapshot.GetFrame snapshot)%N ->
      snd (fst (Tick libm cb snapshot st)) = committed next st
      /\ firstn 4 (snd (Tick libm cb snapshot st))
         = crossing_queries (pointee prev) (pointee next)).
Proof.
  intros Hfind Hslot Hnan next.
  assert (Hfar : too_close (pointee prev) (pointee next) = false).
  { apply too_close_false. intros i.
    assert (Hd : displacement (pointee prev) (pointee next) i = S754_nan).
    { destruct Hnan as [Hnan|Hnan].
      - apply displacement_nan_next. apply MakeBounds_nan, Hnan.
      - apply displacement_nan_prev, Hnan. }
    rewrite Hd. reflexivity. }
  split; [exact Hfar|]. intros Hnewer.
  erewrite Tick_later by eassumption. cbv zeta. fold next. rewrite Hfar.
  assert (Hleb : (frame (pointee next) <=? frame (pointee prev))%N = false)
    by (apply N.leb_gt; exact Hnewer).
  rewrite Hleb. cbn [fst snd]. split; [reflexivity|].
  rewrite report_unfold. cbv zeta.
  destruct (crossed_lanes cb (pointee prev) (pointee next)); reflexivity.
Qed.

Lemma nan_position_passes_distance_check_witness :
  let lost := Example.at_position S754_nan F32.zero in
  let st := Example.baseline 1 Example.before_line in
  snd (fst (Tick taylor_libm (Example.detector Example.quiet) (Example.world 2 lost) st))
  = committed (built taylor_libm (Example.detector Example.quiet) (Example.world 2 lost)
                 (Example.car_at lost) st) st.
Proof.
  intros lost st.
  destruct (@nan_position_passes_distance_check taylor_libm Example.Marking
              (Example.detector Example.quiet) (Example.world 2 lost) (Example.car_at lost)
              Example.snapshot_before st) as [_ Hcommit].
  - reflexivity.
  - vm_compute. reflexivity.
  - left. left. reflexivity.
  - apply Hcommit. vm_compute. reflexivity.
Defined.

(** ** More on [Listen] and [Stop] *)

(** X8.  [Stop] always leaves the identifier 0 and is idempotent, whether or
    not the episode can be locked; and the [Listen] that follows a [Stop]
    only registers: it removes nothing. *)
Theorem stop_then_listen (LaneMarking : Type) (w : World LaneMarking) :
  _callback_id (fst (Stop w)) = 0%N
  /\ Stop (fst (Stop w)) = (fst (Stop w), [])
  /\ (forall callback vehicle,
      as_vehicle (GetParent w) = Some vehicle ->
      lockable w = true ->
      snd (Listen callback (fst (Stop w)))
      = [RegisterOnTickEvent (N.succ (last_id (episode w)))]).
Proof.
  split; [|split].
  - unfold Stop. destruct (_ && _); reflexivity.
  - apply Stop_idle. unfold Stop. destruct (_ && _); reflexivity.
  - intros callback vehicle Hvehicle Hlock.
    rewrite (Stop_lockable_result w Hlock). cbn [fst].
    rewrite (@Listen_vehicle _ callback vehicle); cbn [with_callback_id GetParent lockable];
      [|exact Hvehicle|exact Hlock].
    cbn [snd _callback_id episode own N.eqb map].
    destruct (_callback_id w =? 0)%N; reflexivity.
Qed.

Lemma stop_then_listen_witness :
  snd (Listen Example.failing (fst (Stop Example.listening))) = [RegisterOnTickEvent 3].
Proof.
  destruct (stop_then_listen Example.listening) as (_ & _ & Hlisten).
  apply (Hlisten Example.failing {| GetId := Example.car; GetBoundingBox := Example.box |});
    reflexivity.
Defined.

(** X9.  [Listen] and [Stop] never touch the handlers of others.  While the
    episode can be locked, after any calls of [Listen] and [Stop] the
    handlers that were registered by others are still registered, in their
    order and before the one of this sensor, and identifiers are never
    handed out twice: the last identifier only grows. *)
Theorem others_stay_registered
    (LaneMarking : Type) (others : list N) (w0 : World LaneMarking)
    (requests : list (request LaneMarking)) :
  lockable w0 = true ->
  tidy others w0 ->
  let w := serve_all requests w0 in
  registered (episode w) = others ++ own (_callback_id w)
  /\ NoDup (registered (episode w))
  /\ (last_id (episode w0) <= last_id (episode w))%N
  /\ GetParent w = GetParent w0.
Proof.
  intros Hlock Htidy w.
  destruct (serve_all_tidy requests Htidy Hlock) as [[Hreg Hdistinct _] _]. fold w in Hreg, Hdistinct.
  split; [exact Hreg|]. split; [exact Hdistinct|]. split; [|apply serve_all_parent].
  subst w. clear. revert w0. induction requests as [|r requests IH]; intros w0; [cbn; lia|].
  cbn [serve_all fold_left]. etransitivity; [|apply IH].
  destruct r as [callback|]; cbn [serve].
  - unfold Listen. destruct (as_vehicle (GetParent w0)); [|cbn; lia].
    destruct (lockable w0); [|cbn; lia].
    cbn [register]. destruct (negb _); cbn; lia.
  - unfold Stop. destruct (_ && _); cbn; lia.
Qed.

Lemma others_stay_registered_witness :
  registered (episode (serve_all [DoListen Example.quiet; DoListen Example.failing; DoStop]
                         Example.attached))
  = [1%N] ++ own 0.
Proof.
  destruct (@others_stay_registered Example.Marking [1%N] Example.attached
              [DoListen Example.quiet; DoListen Example.failing; DoStop]
              eq_refl attached_tidy) as (Hreg & _).
  exact Hreg.
Defined.

(** * Meshes *)

Lemma back_last {A : Type} (l : list A) (a : A) : back (l ++ [a]) = Some a.
Proof.
  induction l as [|b l IH]; [reflexivity|].
  cbn [app back]. destruct (l ++ [a]) eqn:H; [destruct l; discriminate|exact IH].
Qed.

Lemma back_removelast {A : Type} (l : list A) (a : A) :
  back l = Some a -> l = removelast l ++ [a].
Proof.
  induction l as [|b l IH]; [discriminate|]. destruct l as [|c l].
  - intros [= ->]. reflexivity.
  - intros H. cbn [removelast app]. f_equal. apply IH. exact H.
Qed.

Lemma back_none {A : Type} (l : list A) : back l = None -> l = [].
Proof.
  induction l as [|b l IH]; [reflexivity|]. destruct l as [|c l]; [discriminate|].
  intros H. specialize (IH H). discriminate.
Qed.

Lemma size_app {A : Type} (l l' : list A) : size (l ++ l') = (size l + size l')%N.
Proof. unfold size. rewrite length_app. lia. Qed.

Module MeshFacts.
Import Mesh.

Lemma strip_loop_spec (fuel : nat) (i : N) (cw : bool) (m : t) :
  strip_loop fuel i cw m
  = {| _vertices := _vertices m; _normals := _normals m;
       _indexes := _indexes m
                   ++ strip_indexes (Nat.min fuel (N.to_nat (GetVerticesNum m - i))) i cw;
       _uvs := _uvs m; _materials := _materials m |}.
Proof.
  revert i cw m. induction fuel as [|fuel IH]; intros i cw m.
  - cbn. rewrite app_nil_r. destruct m; reflexivity.
  - cbn [strip_loop]. destruct (N.ltb_spec i (GetVerticesNum m)) as [Hlt|Hge].
    + rewrite IH. unfold GetVerticesNum in *.
      replace (N.to_nat (size (_vertices m) - i))
        with (S (N.to_nat (size (_vertices m) - (i + 1)))) by lia.
      destruct cw; cbn [negb AddIndex _vertices _indexes _normals _uvs _materials
                        Nat.min strip_indexes];
        rewrite <- !app_assoc; reflexivity.
    + replace (N.to_nat (GetVerticesNum m - i)) with O by lia.
      rewrite Nat.min_0_r. cbn. rewrite app_nil_r. destruct m; reflexivity.
Qed.

Lemma fan_loop_spec (fuel : nat) (initial i : N) (m : t) :
  fan_loop fuel initial i m
  = {| _vertices := _vertices m; _normals := _normals m;
       _indexes := _indexes m
                   ++ fan_indexes (Nat.min fuel (N.to_nat (GetVerticesNum m - i))) initial i;
       _uvs := _uvs m; _materials := _materials m |}.
Proof.
  revert i m. induction fuel as [|fuel IH]; intros i m.
  - cbn. rewrite app_nil_r. destruct m; reflexivity.
  - cbn [fan_loop]. destruct (N.ltb_spec i (GetVerticesNum m)) as [Hlt|Hge].
    + rewrite IH. unfold GetVerticesNum in *.
      replace (N.to_nat (size (_vertices m) - i))
        with (S (N.to_nat (size (_vertices m) - (i + 1)))) by lia.
      cbn [AddIndex _vertices _indexes _normals _uvs _materials Nat.min fan_indexes].
      rewrite <- !app_assoc. reflexivity.
    + replace (N.to_nat (GetVerticesNum m - i)) with O by lia.
      rewrite Nat.min_0_r. cbn. rewrite app_nil_r. destruct m; reflexivity.
Qed.

(** The loops end by themselves: the bound on their iterations is never
    what stops them. *)
Lemma AddTriangleStrip_spec (vertices : list Vector3D) (m : t) :
  vertices <> [] ->
  AddTriangleStrip vertices m
  = {| _vertices := _vertices m ++ vertices; _normals := _normals m;
       _indexes := _indexes m
                   ++ strip_indexes (List.length vertices - 2) (GetVerticesNum m + 2) true;
       _uvs := _uvs m; _materials := _materials m |}.
Proof.
  intros Hne. unfold AddTriangleStrip.
  destruct (N.eqb_spec (size vertices) 0) as [Hzero|_].
  - destruct vertices; [congruence|]. unfold size in Hzero. cbn in Hzero. lia.
  - rewrite strip_loop_spec. unfold GetVerticesNum, AddVertices.
    cbn [_vertices _normals _indexes _uvs _materials]. rewrite size_app.
    replace (Nat.min (List.length vertices)
               (N.to_nat (size (_vertices m) + size vertices - (size (_vertices m) + 2))))
      with (List.length vertices - 2) by (unfold size; lia).
    reflexivity.
Qed.

Lemma AddTriangleFan_spec (vertices : list Vector3D) (m : t) :
  AddTriangleFan vertices m
  = {| _vertices := _vertices m ++ vertices; _normals := _normals m;
       _indexes := _indexes m
                   ++ fan_indexes (List.length vertices - 2)
                        (GetVerticesNum m + 1) (GetVerticesNum m + 2);
       _uvs := _uvs m; _materials := _materials m |}.
Proof.
  unfold AddTriangleFan. rewrite fan_loop_spec. unfold GetVerticesNum, AddVertices.
  cbn [_vertices _normals _indexes _uvs _materials]. rewrite size_app.
  replace (Nat.min (List.length vertices)
             (N.to_nat (size (_vertices m) + size vertices - (size (_vertices m) + 2))))
    with (List.length vertices - 2) by (unfold size; lia).
  reflexivity.
Qed.

Lemma strip_indexes_length (count : nat) (i : N) (cw : bool) :
  List.length (strip_indexes count i cw) = 3 * count.
Proof.
  revert i cw. induction count as [|count IH]; intros i cw; [reflexivity|].
  cbn [strip_indexes]. rewrite length_app, IH. destruct cw; cbn; lia.
Qed.

Lemma fan_indexes_length (count : nat) (initial i : N) :
  List.length (fan_indexes count initial i) = 3 * count.
Proof.
  revert i. induction count as [|count IH]; intros i; [reflexivity|].
  cbn [fan_indexes]. rewrite length_app, IH. cbn. lia.
Qed.

Lemma strip_indexes_range (count : nat) (i : N) (cw : bool) :
  Forall (fun index => i - 1 <= index <= i + N.of_nat count)%N (strip_indexes count i cw).
Proof.
  revert i cw. induction count as [|count IH]; intros i cw; [constructor|].
  cbn [strip_indexes]. apply Forall_app. split.
  - destruct cw; cbn [negb]; repeat constructor; lia.
  - eapply Forall_impl; [|apply IH]. cbv beta. intros index. lia.
Qed.

Lemma fan_indexes_range (count : nat) (initial i : N) :
  (initial <= i)%N ->
  Forall (fun index => initial <= index <= i + N.of_nat count)%N
    (fan_indexes count initial i).
Proof.
  revert i. induction count as [|count IH]; intros i Hle; [constructor|].
  cbn [fan_indexes]. apply Forall_app. split.
  - repeat constructor; lia.
  - eapply Forall_impl; [|apply IH; lia]. cbv beta. intros index. lia.
Qed.

(** The triangle number [j] of a strip and of a fan. *)
Lemma strip_indexes_triangle (count j : nat) (i : N) (cw : bool) :
  j < count ->
  firstn 3 (skipn (3 * j) (strip_indexes count i cw))
  = (if Bool.eqb (Nat.even j) cw
     then [i + N.of_nat j - 1; i + N.of_nat j; i + N.of_nat j + 1]
     else [i + N.of_nat j + 1; i + N.of_nat j; i + N.of_nat j - 1])%N.
Proof.
  revert j i cw. induction count as [|count IH]; intros j i cw Hj; [lia|].
  destruct j as [|j].
  - cbn [strip_indexes Nat.mul skipn]. rewrite N.add_0_r.
    destruct cw; reflexivity.
  - replace (3 * S j) with (3 * j + 3) by lia. cbn [strip_indexes].
    rewrite <- skipn_skipn.
    replace (skipn 3 ((if negb cw then [i + 1; i; i - 1] else [i - 1; i; i + 1])%N
                      ++ strip_indexes count (i + 1) (negb cw)))
      with (strip_indexes count (i + 1)%N (negb cw)) by (destruct cw; reflexivity).
    rewrite IH by lia. rewrite Nat.even_succ, <- Nat.negb_even.
    replace (i + 1 + N.of_nat j)%N with (i + N.of_nat (S j))%N by lia.
    destruct (Nat.even j), cw; reflexivity.
Qed.


(** X10.  [AddTriangleStrip] with no vertex changes nothing.  With [k]
    vertices on a mesh of [n] vertices it appends the vertices and, when
    [k >= 3], the [k - 2] triangles of the strip (with one or two vertices,
    which the debug assertion forbids, a release build adds no index), as [3 * (k - 2)] indexes
    that all refer, counting from 1, to the new vertices [n + 1 .. n + k]:
    triangle [j] is [n+1+j, n+2+j, n+3+j] when [j] is even and
    [n+3+j, n+2+j, n+1+j] when [j] is odd.  Nothing else changes. *)
Theorem strip_adds_alternating_triangles (vertices : list Vector3D) (m : t) :
  AddTriangleStrip [] m = m
  /\ (vertices <> [] ->
      let n := GetVerticesNum m in
      let k := List.length vertices in
      let m' := AddTriangleStrip vertices m in
      _vertices m' = _vertices m ++ vertices
      /\ _normals m' = _normals m /\ _uvs m' = _uvs m /\ _materials m' = _materials m
      /\ exists added,
           _indexes m' = _indexes m ++ added
           /\ List.length added = 3 * (k - 2)
           /\ Forall (fun index => n + 1 <= index <= n + N.of_nat k)%N added
           /\ forall j, j < k - 2 ->
                firstn 3 (skipn (3 * j) added)
                = (if Nat.even j
                   then [n + 1 + N.of_nat j; n + 2 + N.of_nat j; n + 3 + N.of_nat j]
                   else [n + 3 + N.of_nat j; n + 2 + N.of_nat j; n + 1 + N.of_nat j])%N).
Proof.
  split; [reflexivity|]. intros Hne. cbv zeta. rewrite (AddTriangleStrip_spec m Hne).
  cbn [_vertices _normals _indexes _uvs _materials]. repeat split.
  eexists. split; [reflexivity|]. split; [apply strip_indexes_length|]. split.
  - destruct vertices as [|v [|v' vertices]]; [constructor|constructor|].
    eapply Forall_impl; [|apply strip_indexes_range]. cbv beta. intros index.
    cbn [List.length]. lia.
  - intros j Hj. rewrite strip_indexes_triangle by exact Hj.
    replace (GetVerticesNum m + 2 + N.of_nat j - 1)%N
      with (GetVerticesNum m + 1 + N.of_nat j)%N by lia.
    replace (GetVerticesNum m + 2 + N.of_nat j + 1)%N
      with (GetVerticesNum m + 3 + N.of_nat j)%N by lia.
    destruct (Nat.even j); reflexivity.
Qed.

Lemma strip_adds_alternating_triangles_witness :
  _indexes (AddTriangleStrip MeshExample.square (AddTriangleStrip MeshExample.square empty_mesh))
  = [1; 2; 3; 4; 3; 2; 5; 6; 7; 8; 7; 6]%N.
Proof.
  destruct (strip_adds_alternating_triangles MeshExample.square
              (AddTriangleStrip MeshExample.square empty_mesh)) as [_ Hstrip].
  destruct Hstrip as (_ & _ & _ & _ & added & Hindexes & Hlength & _ & Htriangles).
  - discriminate.
  - rewrite Hindexes.
    pose proof (Htriangles 0 ltac:(cbn; lia)) as H0.
    pose proof (Htriangles 1 ltac:(cbn; lia)) as H1.
    cbn in Hlength.
    destruct added as [|a0 [|a1 [|a2 [|a3 [|a4 [|a5 [|a6 added]]]]]]]; try discriminate.
    cbn in H0, H1. injection H0 as -> -> ->. injection H1 as -> -> ->. reflexivity.
Defined.



(** ** What the builder keeps true *)

Lemma StronglySorted_last {A : Type} (R : A -> A -> Prop) (l : list A) (a : A) :
  StronglySorted R (l ++ [a]) <-> StronglySorted R l /\ Forall (fun b => R b a) l.
Proof.
  induction l as [|b l IH]; cbn [app].
  - split; [intros _; split; constructor|intros _; repeat constructor].
  - split.
    + intros H. inversion H as [|? ? Hsorted Hall]; subst.
      apply IH in Hsorted. destruct Hsorted as [Hsorted Hlast].
      apply Forall_app in Hall. destruct Hall as [Hall Hba].
      split; constructor; auto. inversion Hba; assumption.
    + intros [H Hall]. inversion H as [|? ? Hsorted Hb]; subst.
      inversion Hall as [|? ? Hba Hall']; subst.
      constructor; [apply IH; auto|]. apply Forall_app. split; [exact Hb|repeat constructor; exact Hba].
Qed.

Lemma material_ok_grows (n n' : N) (material : MeshMaterial.t) :
  (n <= n')%N -> material_ok n material -> material_ok n' material.
Proof. unfold material_ok. intros Hle (H3 & Hstart & Hend). repeat split; try lia. Qed.

Lemma size_by_three (l added : list N) (count : nat) :
  (size l mod 3 = 0)%N -> List.length added = 3 * count ->
  (size (l ++ added) mod 3 = 0)%N.
Proof.
  intros Hl Hadded. rewrite size_app. unfold size at 2. rewrite Hadded.
  replace (N.of_nat (3 * count)) with (N.of_nat count * 3)%N by lia.
  rewrite N.Div0.mod_add. exact Hl.
Qed.

Lemma well_formed_append (m : t) (vertices : list Vector3D) (added : list N) (count : nat) :
  well_formed m ->
  List.length added = 3 * count ->
  Forall (fun index => 1 <= index <= GetVerticesNum m + size vertices)%N added ->
  well_formed {| _vertices := _vertices m ++ vertices; _normals := _normals m;
                 _indexes := _indexes m ++ added; _uvs := _uvs m;
                 _materials := _materials m |}.
Proof.
  intros [Hrange Hthree Hok Horder] Hlength Hadded. unfold GetVerticesNum in *.
  split; cbn [_vertices _indexes _materials]; unfold GetVerticesNum; cbn [_vertices].
  - rewrite size_app. apply Forall_app. split; [|exact Hadded].
    eapply Forall_impl; [|exact Hrange]. cbv beta. intros index. lia.
  - eapply size_by_three; eauto.
  - eapply Forall_impl; [|exact Hok]. intros material. apply material_ok_grows.
    rewrite size_app. lia.
  - exact Horder.
Qed.

Lemma EndMaterial_well_formed (m : t) : well_formed m -> well_formed (EndMaterial m).
Proof.
  intros Hm. unfold EndMaterial.
  destruct (back (_materials m)) as [material|] eqn:Hback; [|exact Hm].
  destruct (N.eqb_spec (MeshMaterial.index_start material) (size (_indexes m)))
    as [|Hstart]; [exact Hm|].
  destruct (N.eqb_spec (MeshMaterial.index_end material) 0) as [Hopen|]; [|exact Hm].
  cbn [orb negb]. destruct (empty (_indexes m)); [exact Hm|]. cbn [orb].
  destruct (N.eqb_spec (size (_indexes m) mod 3) 0) as [Hthree|]; [|exact Hm]. cbn [negb].
  destruct Hm as [Hrange _ Hok Horder].
  unfold close_back. rewrite Hback.
  pose proof (back_removelast _ Hback) as Hsplit.
  rewrite Hsplit in Hok, Horder.
  apply Forall_app in Hok. destruct Hok as [Hok Hlast].
  inversion Hlast as [|? ? (H3 & Hle & _) _]; subst.
  apply StronglySorted_last in Horder. destruct Horder as [Horder Hbefore].
  split; cbn [_vertices _indexes _materials]; auto.
  - apply Forall_app. split; [exact Hok|]. constructor; [|constructor].
    unfold material_ok.
    cbn [MeshMaterial.index_start MeshMaterial.index_end]. split; [exact H3|].
    split; [exact Hle|]. right. lia.
  - apply StronglySorted_last. split; [exact Horder|]. exact Hbefore.
Qed.

Lemma EndMaterial_indexes (m : t) : _indexes (EndMaterial m) = _indexes m.
Proof.
  unfold EndMaterial. destruct (back (_materials m)); [|reflexivity].
  destruct (_ || _); [reflexivity|]. destruct (_ || _); reflexivity.
Qed.

Lemma AddMaterial_well_formed (name : string) (m : t) :
  well_formed m -> well_formed (fst (AddMaterial name m)).
Proof.
  intros Hm. unfold AddMaterial.
  set (m' := match back (_materials m) with
             | Some material =>
                 if (MeshMaterial.index_end material =? 0)%N then EndMaterial m else m
             | None => m
             end).
  assert (Hm' : well_formed m').
  { subst m'. destruct (back (_materials m)) as [material|]; [|exact Hm].
    destruct (_ =? _)%N; [apply EndMaterial_well_formed|]; exact Hm. }
  assert (Hindexes : _indexes m' = _indexes m).
  { subst m'. destruct (back (_materials m)) as [material|]; [|reflexivity].
    destruct (_ =? _)%N; [apply EndMaterial_indexes|reflexivity]. }
  destruct (N.eqb_spec (size (_indexes m) mod 3) 0) as [Hthree|]; [|exact Hm'].
  cbn [negb fst]. destruct Hm' as [Hrange _ Hok Horder]. rewrite Hindexes in *.
  split; cbn [_vertices _indexes _materials]; auto.
  - apply Forall_app. split; [exact Hok|]. constructor; [|constructor].
    unfold material_ok.
    cbn [MeshMaterial.index_start MeshMaterial.index_end]. split; [exact Hthree|].
    split; [lia|left; reflexivity].
  - apply StronglySorted_last. split; [exact Horder|].
    eapply Forall_impl; [|exact Hok]. intros material (_ & Hstart & Hend).
    unfold precedes. cbn [MeshMaterial.index_start MeshMaterial.index_end]. lia.
Qed.

Lemma apply_well_formed (m : t) (o : op) :
  by_triangles o -> well_formed m -> well_formed (apply m o).
Proof.
  intros Ho Hm. destruct o; cbn [apply]; try contradiction.
  - replace (AddVertex vertex m)
      with {| _vertices := _vertices m ++ [vertex]; _normals := _normals m;
              _indexes := _indexes m ++ []; _uvs := _uvs m; _materials := _materials m |}
      by (unfold AddVertex; rewrite app_nil_r; reflexivity).
    apply (@well_formed_append m [vertex] [] 0); auto.
  - replace (AddVertices vertices m)
      with {| _vertices := _vertices m ++ vertices; _normals := _normals m;
              _indexes := _indexes m ++ []; _uvs := _uvs m; _materials := _materials m |}
      by (unfold AddVertices; rewrite app_nil_r; reflexivity).
    apply (@well_formed_append m vertices [] 0); auto.
  - destruct Hm. split; assumption.
  - destruct Hm. split; assumption.
  - destruct Hm. split; assumption.
  - destruct vertices as [|v vertices]; [exact Hm|].
    rewrite AddTriangleStrip_spec by discriminate.
    eapply well_formed_append; [exact Hm|apply strip_indexes_length|].
    destruct vertices as [|v' vertices]; [constructor|].
    eapply Forall_impl; [|apply strip_indexes_range]. cbv beta. intros index.
    unfold size. cbn [List.length]. lia.
  - rewrite AddTriangleFan_spec.
    eapply well_formed_append; [exact Hm|apply fan_indexes_length|].
    destruct vertices as [|v [|v' vertices]]; [constructor|constructor|].
    eapply Forall_impl; [|apply fan_indexes_range; lia]. cbv beta. intros index.
    unfold size. cbn [List.length]. lia.
  - apply AddMaterial_well_formed, Hm.
  - apply EndMaterial_well_formed, Hm.
Qed.

Lemma empty_mesh_well_formed : well_formed empty_mesh.
Proof. split; cbn; constructor. Qed.

(** X12.  Triangles always refer to vertices that exist.  On a mesh that
    is well formed, such as the empty mesh, any calls other than [AddIndex]
    leave a mesh in which every index refers, counting from 1, to a vertex of
    the mesh, the number of indexes is a multiple of 3, every material starts
    at a multiple of 3 and, once closed, ends after its start at a multiple
    of 3 within the indexes, and the materials follow each other without
    overlap.  So [IsValid] never finds the number of indexes wrong there. *)
Theorem built_by_triangles_is_well_formed (ops : list op) (m : t) :
  well_formed m ->
  Forall by_triangles ops ->
  well_formed (build ops m)
  /\ snd (IsValid (build ops m))
     <> ["Mesh validation error: the index amount must be multiple of 3."%string].
Proof.
  intros Hm Hops.
  assert (Hbuilt : well_formed (build ops m)).
  { revert m Hm. induction Hops as [|o ops Ho Hops IH]; intros m Hm; [exact Hm|].
    cbn [build fold_left]. apply IH, apply_well_formed; assumption. }
  split; [exact Hbuilt|]. unfold IsValid.
  destruct (empty (_vertices (build ops m))); [discriminate|].
  rewrite (indexes_by_three Hbuilt). cbn [N.eqb negb]. rewrite andb_false_r.
  destruct (_ && _); discriminate.
Qed.

Lemma built_by_triangles_is_well_formed_witness :
  well_formed (build [OpAddMaterial "road"; OpAddTriangleStrip MeshExample.square;
                      OpAddMaterial "kerb"; OpAddTriangleFan MeshExample.square;
                      OpEndMaterial] empty_mesh).
Proof.
  apply built_by_triangles_is_well_formed.
  - exact empty_mesh_well_formed.
  - repeat constructor.
Defined.

(** X13.  [EndMaterial] is idempotent.  When the number of indexes is not a
    multiple of 3, [EndMaterial] changes nothing and [AddMaterial] changes
    nothing either and writes its complaint. *)
Theorem EndMaterial_is_idempotent (m : t) :
  EndMaterial (EndMaterial m) = EndMaterial m
  /\ ((size (_indexes m) mod 3 <> 0)%N ->
      EndMaterial m = m
      /\ forall material_name,
           AddMaterial material_name m = (m, ["open_index % 3 != 0"%string])).
Proof.
  split.
  - unfold EndMaterial at 2 3.
    destruct (back (_materials m)) as [material|] eqn:Hback.
    + destruct (_ || _) eqn:Hfirst.
      * unfold EndMaterial. rewrite Hback, Hfirst. reflexivity.
      * destruct (empty (_indexes m) || _) eqn:Hsecond.
        -- unfold EndMaterial. rewrite Hback, Hfirst, Hsecond. reflexivity.
        -- unfold EndMaterial. cbn [_materials _indexes]. unfold close_back.
           rewrite Hback, back_last. cbn [MeshMaterial.index_start MeshMaterial.index_end].
           apply orb_false_iff in Hsecond. destruct Hsecond as [Hnonempty _].
           assert (Hsize : (size (_indexes m) =? 0)%N = false).
           { destruct (_indexes m); [discriminate|]. unfold size. cbn. reflexivity. }
           rewrite Hsize. cbn [negb]. rewrite orb_true_r. reflexivity.
    + unfold EndMaterial. rewrite Hback. reflexivity.
  - intros Hthree.
    assert (Hend : EndMaterial m = m).
    { unfold EndMaterial. destruct (back (_materials m)); [|reflexivity].
      destruct (_ || _); [reflexivity|].
      apply N.eqb_neq in Hthree. rewrite Hthree. cbn [negb]. rewrite orb_true_r.
      reflexivity. }
    split; [exact Hend|]. intros material_name. unfold AddMaterial. rewrite Hend.
    apply N.eqb_neq in Hthree. rewrite Hthree. cbn [negb].
    destruct (back (_materials m)) as [material|]; [|reflexivity].
    destruct (MeshMaterial.index_end material =? 0)%N; reflexivity.
Qed.

Lemma EndMaterial_is_idempotent_witness :
  let m := AddIndex 1 (AddVertex (MeshExample.corner 0 0) empty_mesh) in
  EndMaterial m = m /\ AddMaterial "road" m = (m, ["open_index % 3 != 0"%string]).
Proof.
  intros m. destruct (EndMaterial_is_idempotent m) as [_ Hodd].
  destruct Hodd as [Hend Hadd]; [vm_compute; discriminate|].
  split; [exact Hend|apply Hadd].
Defined.

Lemma apply_materials_prefix (m : t) (o : op) (j : nat) (material : MeshMaterial.t) :
  nth_error (_materials m) j = Some material ->
  S j < List.length (_materials m) ->
  nth_error (_materials (apply m o)) j = Some material
  /\ List.length (_materials m) <= List.length (_materials (apply m o)).
Proof.
  intros Hnth Hj.
  assert (Hend : nth_error (_materials (EndMaterial m)) j = Some material
                 /\ List.length (_materials (EndMaterial m)) = List.length (_materials m)).
  { unfold EndMaterial. destruct (back (_materials m)) as [last|] eqn:Hback; [|auto].
    destruct (_ || _); [auto|]. destruct (_ || _); [auto|].
    cbn [_materials]. unfold close_back. rewrite Hback.
    pose proof (back_removelast _ Hback) as Hsplit.
    assert (Hlen : List.length (_materials m) = S (List.length (removelast (_materials m)))).
    { rewrite Hsplit at 1. rewrite length_app. cbn. lia. }
    split.
    - rewrite nth_error_app1 by lia. rewrite Hsplit, nth_error_app1 in Hnth by lia.
      exact Hnth.
    - rewrite length_app. cbn. lia. }
  destruct o; cbn [apply]; auto.
  - unfold AddTriangleStrip. destruct (_ =? _)%N; [auto|]. rewrite strip_loop_spec. auto.
  - unfold AddTriangleFan. rewrite fan_loop_spec. auto.
  - unfold AddMaterial.
    set (m' := match back (_materials m) with
               | Some last => if (MeshMaterial.index_end last =? 0)%N then EndMaterial m else m
               | None => m
               end).
    assert (Hm' : nth_error (_materials m') j = Some material
                  /\ List.length (_materials m') = List.length (_materials m)).
    { subst m'. destruct (back (_materials m)); [|auto]. destruct (_ =? _)%N; auto. }
    destruct Hm' as [Hnth' Hlen'].
    destruct (negb _); cbn [fst _materials]; [split; [exact Hnth'|lia]|].
    split; [rewrite nth_error_app1 by lia; exact Hnth'|rewrite length_app; lia].
  - destruct Hend as [H Hlen]. split; [exact H|lia].
Qed.

(** X14.  Only the last material ever changes: a material that is followed
    by another one stays as it is whatever is called afterwards.  And
    [AddMaterial] does not always close the material before: two calls in a
    row, with no triangle added in between, leave the first material open
    (its [index_end] is 0) with the second one after it, so it is never
    closed. *)
Theorem only_last_material_changes :
  (forall (ops : list op) (m : t) (j : nat) (material : MeshMaterial.t),
      nth_error (_materials m) j = Some material ->
      S j < List.length (_materials m) ->
      nth_error (_materials (build ops m)) j = Some material)
  /\ (forall (first second : string) (m : t),
      (size (_indexes m) mod 3 = 0)%N ->
      (forall last, back (_materials m) = Some last -> MeshMaterial.index_end last <> 0%N) ->
      _materials (fst (AddMaterial second (fst (AddMaterial first m))))
      = _materials m
        ++ [{| MeshMaterial.name := first;
               MeshMaterial.index_start := size (_indexes m);
               MeshMaterial.index_end := 0 |};
            {| MeshMaterial.name := second;
               MeshMaterial.index_start := size (_indexes m);
               MeshMaterial.index_end := 0 |}]).
Proof.
  split.
  - induction ops as [|o ops IH]; intros m j material Hnth Hj; [exact Hnth|].
    cbn [build fold_left]. destruct (@apply_materials_prefix m o j material Hnth Hj) as [Hnth' Hlen].
    apply IH; [exact Hnth'|lia].
  - intros first second m Hthree Hclosed.
    assert (Hfirst : AddMaterial first m
                     = ({| _vertices := _vertices m; _normals := _normals m;
                           _indexes := _indexes m; _uvs := _uvs m;
                           _materials := _materials m
                                         ++ [{| MeshMaterial.name := first;
                                                MeshMaterial.index_start := size (_indexes m);
                                                MeshMaterial.index_end := 0 |}] |}, [])).
    { unfold AddMaterial. rewrite Hthree. cbn [N.eqb negb].
      destruct (back (_materials m)) as [last|] eqn:Hback; [|reflexivity].
      specialize (Hclosed last eq_refl). apply N.eqb_neq in Hclosed. rewrite Hclosed.
      reflexivity. }
    rewrite Hfirst. cbn [fst]. unfold AddMaterial. cbn [_materials _indexes].
    rewrite back_last. cbn [MeshMaterial.index_end N.eqb].
    unfold EndMaterial. cbn [_materials _indexes]. rewrite back_last.
    cbn [MeshMaterial.index_start MeshMaterial.index_end]. rewrite N.eqb_refl. cbn [orb].
    rewrite Hthree. cbn [N.eqb negb fst _materials]. rewrite <- app_assoc. reflexivity.
Qed.

Lemma only_last_material_changes_witness :
  nth_error
    (_materials (build [OpAddTriangleStrip MeshExample.square; OpEndMaterial;
                        OpAddMaterial "verge"; OpAddTriangleFan MeshExample.square;
                        OpEndMaterial]
                   (fst (AddMaterial "kerb" (fst (AddMaterial "road" empty_mesh))))))
    0
  = Some {| MeshMaterial.name := "road"; MeshMaterial.index_start := 0;
            MeshMaterial.index_end := 0 |}.
Proof.
  destruct only_last_material_changes as [Hprefix Htwice].
  apply Hprefix.
  - rewrite (Htwice "road"%string "kerb"%string empty_mesh); [reflexivity|reflexivity|].
    intros last Hback. discriminate.
  - rewrite (Htwice "road"%string "kerb"%string empty_mesh); [cbn; lia|reflexivity|].
    intros last Hback. discriminate.
Defined.

(** ** The export *)

Lemma faces_total (count : nat) :
  forall (it : list N) (it_m : list MeshMaterial.t) (index_counter : N),
    List.length it = 3 * count ->
    exists text, faces it it_m index_counter = Some text.
Proof.
  induction count as [|count IH]; intros it it_m index_counter Hlength.
  - destruct it; [|discriminate]. exists ""%string. reflexivity.
  - destruct it as [|a [|b [|c it]]]; try (cbn in Hlength; lia).
    cbn [faces].
    match goal with
    | |- context [faces it ?ms ?c] => destruct (IH it ms c) as [text Htext]
    end.
    + cbn in Hlength. lia.
    + rewrite Htext. eexists. reflexivity.
Qed.

Lemma faces_incomplete (it_m : list MeshMaterial.t) (index_counter a b : N) :
  faces [a] it_m index_counter = None /\ faces [a; b] it_m index_counter = None.
Proof. split; reflexivity. Qed.

(** X15.  [GenerateOBJ] never reads past the end of the indexes, although
    its loop takes three indexes at a time without looking for the end:
    [IsValid] has refused the meshes where that would happen.  The text is
    empty exactly when [IsValid] fails, and what is written to [std::cout]
    is what [IsValid] writes.  Without the check the loop would read past
    the end as soon as one or two indexes are left. *)
Theorem GenerateOBJ_reads_within_indexes (show_float : F32.float -> string) (m : t) :
  (exists text,
      fst (GenerateOBJ show_float m) = Some text
      /\ (text = ""%string <-> fst (IsValid m) = false))
  /\ snd (GenerateOBJ show_float m) = snd (IsValid m)
  /\ (forall it_m index_counter a b,
        faces [a] it_m index_counter = None /\ faces [a; b] it_m index_counter = None).
Proof.
  split; [|split; [|intros; apply faces_incomplete]].
  - unfold GenerateOBJ.
    destruct (IsValid m) as [valid printed] eqn:Hvalid. cbn [fst].
    destruct valid; cbn [negb fst].
    + assert (Hthree : empty (_indexes m) = true
                       \/ exists count, List.length (_indexes m) = 3 * count).
      { unfold IsValid in Hvalid.
        destruct (empty (_vertices m)); [discriminate|].
        destruct (empty (_indexes m)) eqn:Hempty; [auto|]. right.
        destruct (N.eqb_spec (size (_indexes m) mod 3) 0) as [Hmod|];
          [|cbn in Hvalid; discriminate].
        exists (N.to_nat (size (_indexes m) / 3)).
        pose proof (N.div_mod' (size (_indexes m)) 3) as Hdiv. unfold size in *. lia. }
      destruct (empty (_indexes m)) eqn:Hempty; cbn [negb].
      * eexists. split; [reflexivity|]. split; discriminate.
      * destruct Hthree as [Hthree|[count Hcount]]; [discriminate|].
        destruct (faces_total count (_indexes m) (_materials m) 0 Hcount)
          as [text Htext].
        rewrite Htext. eexists. split; [reflexivity|]. split; discriminate.
    + exists ""%string. split; [reflexivity|]. split; reflexivity.
  - unfold GenerateOBJ. destruct (IsValid m) as [valid printed]. cbn [snd].
    destruct valid; cbn [negb]; [|reflexivity].
    destruct (negb (empty (_indexes m))); [|reflexivity].
    destruct (faces _ _ _); reflexivity.
Qed.

End MeshFacts.

(** * Walkers *)

Section WalkerFacts.

Variable Control : Type.
Variable differs : Control -> Control -> bool.

Lemma ApplyControls_passed (control : Control) (controls : list Control)
    (w : Walker.t Control) :
  differs control (Walker._control w) = true ->
  Walker.alive w = true ->
  Walker.ApplyControls differs (control :: controls) w
  = (let '(c, w', sent) :=
       Walker.ApplyControls differs controls
         {| Walker._control := control; Walker.alive := Walker.alive w |} in
     (c, w', control :: sent)).
Proof.
  intros Hdiffers Halive. cbn [Walker.ApplyControls]. unfold Walker.ApplyControl.
  rewrite Hdiffers, Halive.
  destruct (Walker.ApplyControls differs controls _) as [[c w'] sent]. reflexivity.
Qed.

Lemma ApplyControls_dropped (control : Control) (controls : list Control)
    (w : Walker.t Control) :
  differs control (Walker._control w) = false ->
  Walker.ApplyControls differs (control :: controls) w
  = Walker.ApplyControls differs controls w.
Proof.
  intros Hdiffers. cbn [Walker.ApplyControls]. unfold Walker.ApplyControl.
  rewrite Hdiffers.
  destruct (Walker.ApplyControls differs controls w) as [[c w'] sent]. reflexivity.
Qed.

Lemma last_cons_default {A : Type} (a d : A) (l : list A) : last (a :: l) d = last l a.
Proof.
  revert a d. induction l as [|b l IH]; intros a d; [reflexivity|].
  change (last (a :: b :: l) d) with (last (b :: l) d). rewrite !IH. reflexivity.
Qed.

Lemma ApplyControls_alive (controls : list Control) (w : Walker.t Control) :
  Walker.alive w = true ->
  fst (fst (Walker.ApplyControls differs controls w)) = Returned
  /\ List.length (snd (Walker.ApplyControls differs controls w)) <= List.length controls
  /\ Walker.each_differs differs (Walker._control w)
       (snd (Walker.ApplyControls differs controls w))
  /\ Walker._control (snd (fst (Walker.ApplyControls differs controls w)))
     = last (snd (Walker.ApplyControls differs controls w)) (Walker._control w).
Proof.
  revert w. induction controls as [|control controls IH]; intros w Halive.
  - cbn. auto.
  - destruct (differs control (Walker._control w)) eqn:Hdiffers.
    + rewrite (@ApplyControls_passed control controls w Hdiffers Halive).
      specialize (IH {| Walker._control := control; Walker.alive := Walker.alive w |} Halive).
      destruct (Walker.ApplyControls differs controls _) as [[c w'] sent].
      cbn [fst snd Walker._control] in *.
      destruct IH as (Hc & Hlength & Hchain & Hlast).
      split; [exact Hc|]. split; [cbn [List.length]; lia|].
      split; [cbn [Walker.each_differs]; auto|].
      rewrite Hlast. symmetry. apply last_cons_default.
    + rewrite (@ApplyControls_dropped control controls w Hdiffers).
      destruct (IH w Halive) as (Hc & Hlength & Hchain & Hlast).
      split; [exact Hc|]. split; [cbn [List.length]; lia|]. split; assumption.
Qed.

End WalkerFacts.

(** X16.  [ApplyControl] passes a control on only when it differs from the
    one it stored last, and then stores it.  So with a live episode any calls
    of [ApplyControl] return, pass on at most as many controls as there were
    calls, each one different from the one passed on before it (the first
    from the control stored at the start), and the walker ends with the last
    control passed on.  A control that does not differ from the stored one
    is dropped without locking the episode: the call returns, and changes
    nothing, also when the episode is gone. *)
Theorem ApplyControl_passes_changes_only
    (Control : Type) (differs : Control -> Control -> bool)
    (controls : list Control) (w : Walker.t Control) :
  (Walker.alive w = true ->
   fst (fst (Walker.ApplyControls differs controls w)) = Returned
   /\ List.length (snd (Walker.ApplyControls differs controls w)) <= List.length controls
   /\ Walker.each_differs differs (Walker._control w)
        (snd (Walker.ApplyControls differs controls w))
   /\ Walker._control (snd (fst (Walker.ApplyControls differs controls w)))
      = last (snd (Walker.ApplyControls differs controls w)) (Walker._control w))
  /\ (forall control,
      differs control (Walker._control w) = false ->
      Walker.ApplyControl differs control w = (Returned, w, [])).
Proof.
  split.
  - intros Halive. apply ApplyControls_alive, Halive.
  - intros control Hsame. unfold Walker.ApplyControl. rewrite Hsame. reflexivity.
Qed.

Lemma ApplyControl_passes_changes_only_witness :
  let differs := fun a b : N => negb (a =? b)%N in
  let w := {| Walker._control := 0%N; Walker.alive := true |} in
  Walker.each_differs differs 0%N
    (snd (Walker.ApplyControls differs [0; 1; 1; 2; 2; 2; 1]%N w))
  /\ snd (Walker.ApplyControls differs [0; 1; 1; 2; 2; 2; 1]%N w) = [1; 2; 1]%N
  /\ Walker.ApplyControl differs 0%N {| Walker._control := 0%N; Walker.alive := false |}
     = (Returned, {| Walker._control := 0%N; Walker.alive := false |}, []).
Proof.
  intros differs w.
  destruct (ApplyControl_passes_changes_only differs [0; 1; 1; 2; 2; 2; 1]%N w)
    as [Halive _].
  destruct (Halive eq_refl) as (_ & _ & Hchain & _).
  destruct (ApplyControl_passes_changes_only differs []
              {| Walker._control := 0%N; Walker.alive := false |}) as [_ Hsame].
  split; [exact Hchain|]. split; [reflexivity|apply Hsame; reflexivity].
Defined.
